(** * PKCS#7 / CMS container verification (openssl_pkcs7.c)

    A shallow embedding of the OpenSSL backed PKCS#7 container of the
    openssl plugin: loading and classifying a container, content
    extraction, and the signature enumerator with its two helpers
    [verify_signature] and [verify_digest].

    OpenSSL, the credential manager, the hasher and the public key are
    collaborators of the file: they are taken as the operations of two
    interfaces ([Foreign] for their types, [Collaborators] for their
    functions).  Diagnostics and the allocation of the objects that
    outlive a call are recorded in a [world] that every stateful function
    threads through. *)

From Stdlib Require Import List ZArith Bool String Lia Arith PeanoNat.
From Stdlib.Strings Require Import Byte.
Import ListNotations.

Set Implicit Arguments.

(** ** Plain data *)

(** Modelled from the spec: utils/chunk.h is not part of the sources.
    [chunk_t] is a pointer and a length in C; here the bytes it designates. *)
Definition chunk_t := list byte.

Definition chunk_empty : chunk_t := [].

(** Modelled from the spec: [chunk_cat("mm", a, b)] of utils/chunk.h, the
    concatenation of its two arguments, both consumed. *)
Definition chunk_cat (a b : chunk_t) : chunk_t := a ++ b.

(** Modelled from the spec: [chunk_equals] of utils/chunk.h, the comparison
    byte for byte. *)
Definition chunk_equals (a b : chunk_t) : bool :=
  if list_eq_dec Byte.byte_eq_dec a b then true else false.

(** Modelled from the spec: the index [openssl_asn1_known_oid] returns
    into the table of asn1/oid.h.  The numeric values of that generated
    header are not part of the sources: the four indices the file names are
    kept apart, every other index (OID_UNKNOWN included) is [OID_other]. *)
Inductive known_oid : Type :=
| OID_PKCS7_DATA
| OID_PKCS7_SIGNED_DATA
| OID_PKCS7_ENVELOPED_DATA
| OID_RSA_ENCRYPTION
| OID_other (n : Z).

Definition is_rsa_encryption (o : known_oid) : bool :=
  match o with
  | OID_RSA_ENCRYPTION => true
  | _ => false
  end.

(** Modelled from the spec: [container_type_t] of
    credentials/containers/container.h, as far as the file uses it;
    [CONTAINER_PKCS7] is the generic value a zeroed object holds before
    [parse] classifies it. *)
Inductive container_type_t : Type :=
| CONTAINER_PKCS7
| CONTAINER_PKCS7_DATA
| CONTAINER_PKCS7_SIGNED_DATA
| CONTAINER_PKCS7_ENVELOPED_DATA.

Inductive key_type_t : Type := KEY_RSA | KEY_ECDSA.

Inductive id_type_t : Type := ID_KEY_ID | ID_DER_ASN1_DN.

(** ** The collaborators *)

(** The opaque types of OpenSSL and of libstrongswan. *)
Class Foreign : Type := {
  ASN1_OBJECT : Type;
  ASN1_STRING : Type;        (* ASN1_OCTET_STRING and ASN1_INTEGER *)
  X509_NAME : Type;
  X509_ATTRIBUTE : Type;
  CMS_SignerIdentifier : Type;   (* the [void *sid] of a signer info *)
  identification_t : Type;
  certificate_t : Type;
  public_key_t : Type;
  auth_cfg_t : Type;
  signature_scheme_t : Type;
  hash_algorithm_t : Type;
  hasher_t : Type
}.

Section Structures.
Context {F : Foreign}.

Record X509_ALGOR : Type := { algorithm : ASN1_OBJECT }.

(** [struct CMS_SignerInfo_st], as the file redeclares it. *)
Record CMS_SignerInfo : Type := {
  version : Z;
  sid : CMS_SignerIdentifier;
  digestAlgorithm : X509_ALGOR;
  signedAttrs : list X509_ATTRIBUTE;
  signatureAlgorithm : X509_ALGOR;
  signature : ASN1_STRING
}.

(** What [d2i_CMS_bio] hands back, seen through the three accessors the
    file calls on it. *)
Record CMS_ContentInfo : Type := {
  CMS_get0_type : ASN1_OBJECT;
  CMS_get0_content : option ASN1_STRING;
  CMS_get0_SignerInfos : option (list CMS_SignerInfo)
}.

(** An [auth_cfg_t *]: the address of the object and what it holds. *)
Record auth_ptr : Type := { addr : nat; cfg : auth_cfg_t }.

(** A [chunk_t] whose memory the caller owns. *)
Record owned_chunk : Type := { ptr : nat; bytes : chunk_t }.

(** What a call leaves behind. *)
Inductive event : Type :=
| DBG1 (fmt : string) (args : list hash_algorithm_t)
| auth_clone (p : nat)
| auth_destroy (p : nat)
| chunk_malloc (p : nat).

Record world : Type := { trace : list event; brk : nat }.
End Structures.

(** The functions of OpenSSL, of the credential manager and of the crypto
    factory that the file calls. *)
Class Collaborators {F : Foreign} : Type := {
  (* openssl_util.h *)
  openssl_asn1_known_oid : ASN1_OBJECT -> known_oid;
  openssl_asn1_str2chunk : ASN1_STRING -> chunk_t;
  openssl_x509_name2id : X509_NAME -> option identification_t;
  openssl_i2chunk_X509_ATTRIBUTE : X509_ATTRIBUTE -> chunk_t;
  (* asn1.h *)
  asn1_wrap : Z -> chunk_t -> chunk_t;
  (* OpenSSL *)
  d2i_CMS_bio : chunk_t -> option CMS_ContentInfo;
  CMS_SignerInfo_get0_signer_id :
    CMS_SignerIdentifier -> option (X509_NAME * ASN1_STRING);
  CMS_signed_get0_data_by_OBJ :
    CMS_SignerInfo -> ASN1_OBJECT -> Z -> Z -> option ASN1_STRING;
  OBJ_nid2obj : Z -> ASN1_OBJECT;
  NID_pkcs9_messageDigest : Z;
  V_ASN1_OCTET_STRING : Z;
  (* identification_t, certificate_t, public_key_t *)
  identification_create_from_encoding :
    id_type_t -> chunk_t -> identification_t;
  id_equals : identification_t -> identification_t -> bool;
  get_issuer : certificate_t -> identification_t;
  get_public_key : certificate_t -> option public_key_t;
  key_verify :
    public_key_t -> signature_scheme_t -> chunk_t -> chunk_t -> bool;
  signature_scheme_from_oid : known_oid -> signature_scheme_t;
  (* lib->credmgr *)
  create_trusted_enumerator :
    key_type_t -> identification_t -> bool ->
    list (certificate_t * auth_cfg_t);
  (* lib->crypto *)
  hasher_algorithm_from_oid : known_oid -> hash_algorithm_t;
  create_hasher : hash_algorithm_t -> option hasher_t;
  allocate_hash : hasher_t -> chunk_t -> option chunk_t
}.

(** ** Stateful code *)

Section Monad.
Context {F : Foreign}.

Definition M (A : Type) : Type := world -> A * world.

Definition ret {A} (a : A) : M A := fun w => (a, w).

Definition bind {A B} (m : M A) (k : A -> M B) : M B :=
  fun w => let (a, w') := m w in k a w'.

Definition emit (e : event) : M unit :=
  fun w => (tt, {| trace := trace w ++ [e]; brk := brk w |}).

(** A fresh address. *)
Definition malloc : M nat :=
  fun w => (brk w, {| trace := trace w; brk := S (brk w) |}).
End Monad.

Notation "x <- m ;; k" := (bind m (fun x => k))
  (at level 61, m at next level, right associativity).
Notation "m ;;; k" := (bind m (fun _ => k))
  (at level 61, right associativity).

Section Pkcs7.
Context {F : Foreign} {C : Collaborators}.

(** [DBG1(DBG_LIB, fmt, ...)] *)
Definition dbg1 (fmt : string) (args : list hash_algorithm_t) : M unit :=
  emit (DBG1 fmt args).

(** Modelled from the spec: [auth->clone(auth)], a new object that holds
    what [auth] holds. *)
Definition clone (auth : auth_cfg_t) : M auth_ptr :=
  p <- malloc ;;
  emit (auth_clone p) ;;;
  ret {| addr := p; cfg := auth |}.

(** Modelled from the spec: the macro [DESTROY_IF(obj)] of utils/utils.h,
    which releases [obj] unless it is NULL. *)
Definition DESTROY_IF (obj : option auth_ptr) : M unit :=
  match obj with
  | Some a => emit (auth_destroy (addr a))
  | None => ret tt
  end.

(** Modelled from the spec: [chunk_clone] of utils/chunk.h, the same
    bytes in memory allocated for the caller. *)
Definition chunk_clone (c : chunk_t) : M owned_chunk :=
  p <- malloc ;;
  emit (chunk_malloc p) ;;;
  ret {| ptr := p; bytes := c |}.

(** ** [verify_signature] *)

(** The [for] loop that concatenates the encodings of the signed
    attributes, [i] running from 0 to the attribute count. *)
Fixpoint cat_attrs (attrs : chunk_t) (l : list X509_ATTRIBUTE) : chunk_t :=
  match l with
  | [] => attrs
  | a :: l' =>
      cat_attrs (chunk_cat attrs (openssl_i2chunk_X509_ATTRIBUTE a)) l'
  end.

(** The [while] loop over the trusted enumerator. *)
Fixpoint scan_trusted (issuer : identification_t) (hash_oid : known_oid)
    (attrs sig : chunk_t) (enumerator : list (certificate_t * auth_cfg_t))
    : M (option auth_ptr) :=
  match enumerator with
  | [] => ret None
  | (cert, auth) :: rest =>
      if id_equals issuer (get_issuer cert) then
        match get_public_key cert with
        | Some key =>
            if key_verify key (signature_scheme_from_oid hash_oid) attrs sig
            then
              found <- clone auth ;;
              ret (Some found)
            else scan_trusted issuer hash_oid attrs sig rest
        | None => scan_trusted issuer hash_oid attrs sig rest
        end
      else scan_trusted issuer hash_oid attrs sig rest
  end.

Definition verify_signature (si : CMS_SignerInfo) (hash_oid : known_oid)
    : M (option auth_ptr) :=
  match CMS_SignerInfo_get0_signer_id (sid si) with
  | None => ret None
  | Some (name, snr) =>
      match openssl_x509_name2id name with
      | None => ret None
      | Some issuer =>
          let serial :=
            identification_create_from_encoding
              ID_KEY_ID (openssl_asn1_str2chunk snr) in
          let attrs := cat_attrs chunk_empty (signedAttrs si) in
          let attrs := asn1_wrap 0x31 attrs in
          let sig := openssl_asn1_str2chunk (signature si) in
          scan_trusted issuer hash_oid attrs sig
            (create_trusted_enumerator KEY_RSA serial false)
      end
  end.

(** ** [verify_digest] *)

Definition verify_digest (cms : CMS_ContentInfo) (si : CMS_SignerInfo)
    (hash_oid : known_oid) : M bool :=
  match CMS_signed_get0_data_by_OBJ si
          (OBJ_nid2obj NID_pkcs9_messageDigest) (-3) V_ASN1_OCTET_STRING with
  | None => ret false
  | Some os =>
      let digest := openssl_asn1_str2chunk os in
      match CMS_get0_content cms with
      | None => ret false
      | Some osp =>
          let content := openssl_asn1_str2chunk osp in
          let hash_alg := hasher_algorithm_from_oid hash_oid in
          match create_hasher hash_alg with
          | None =>
              dbg1 "hash algorithm %N not supported" [hash_alg] ;;;
              ret false
          | Some hasher =>
              match allocate_hash hasher content with
              | None => ret false
              | Some hash =>
                  if negb (chunk_equals digest hash) then
                    dbg1 "invalid messageDigest" [] ;;;
                    ret false
                  else ret true
              end
          end
      end
  end.

(** ** The signature enumerator *)

(** [signature_enumerator_t].  [i] starts at 0 and is only incremented
    below [sk_CMS_SignerInfo_num], itself an [int]: it never wraps and is
    never negative. *)
Record signature_enumerator_t : Type := {
  signers : option (list CMS_SignerInfo);
  i : nat;
  auth : option auth_ptr;
  full_cms : CMS_ContentInfo     (* the field [cms]: full CMS *)
}.

Definition sk_CMS_SignerInfo_num (sk : list CMS_SignerInfo) : nat :=
  List.length sk.

Definition sk_CMS_SignerInfo_value (sk : list CMS_SignerInfo) (n : nat)
    : option CMS_SignerInfo :=
  nth_error sk n.

(** [CMS_SignerInfo_get0_algs(si, NULL, NULL, &digest, &sig)] *)
Definition CMS_SignerInfo_get0_algs (si : CMS_SignerInfo)
    : X509_ALGOR * X509_ALGOR :=
  (digestAlgorithm si, signatureAlgorithm si).

(** The [while] loop of [signature_enumerate].  [Some a] is the return
    of TRUE with [*out = a]; [None] is the return of FALSE, [*out] not
    written.  Each round increments [i], so [fuel] rounds are enough when
    [fuel] is at least the number of signers left. *)
Fixpoint enumerate_loop (fuel : nat) (sk : list CMS_SignerInfo)
    (this : signature_enumerator_t)
    : M (option auth_ptr * signature_enumerator_t) :=
  if i this <? sk_CMS_SignerInfo_num sk then
    match fuel with
    | O => ret (None, this)
    | S fuel' =>
        (* clean up previous round *)
        DESTROY_IF (auth this) ;;;
        let this := {| signers := signers this; i := i this;
                       auth := None; full_cms := full_cms this |} in
        match sk_CMS_SignerInfo_value sk (i this) with
        | None => ret (None, this)
        | Some si =>
            let this := {| signers := signers this; i := S (i this);
                           auth := auth this;
                           full_cms := full_cms this |} in
            let (digest, sig) := CMS_SignerInfo_get0_algs si in
            let hash_oid := openssl_asn1_known_oid (algorithm digest) in
            if negb (is_rsa_encryption
                       (openssl_asn1_known_oid (algorithm sig))) then
              dbg1 "only RSA digest encryption supported" [] ;;;
              enumerate_loop fuel' sk this
            else
              found <- verify_signature si hash_oid ;;
              let this := {| signers := signers this; i := i this;
                             auth := found;
                             full_cms := full_cms this |} in
              match found with
              | None =>
                  dbg1 "unable to verify pkcs7 attributes signature" [] ;;;
                  enumerate_loop fuel' sk this
              | Some a =>
                  ok <- verify_digest (full_cms this) si hash_oid ;;
                  if negb ok then enumerate_loop fuel' sk this
                  else ret (Some a, this)
              end
        end
    end
  else ret (None, this).

Definition signature_enumerate (this : signature_enumerator_t)
    : M (option auth_ptr * signature_enumerator_t) :=
  match signers this with
  | None => ret (None, this)
  | Some sk =>
      enumerate_loop (sk_CMS_SignerInfo_num sk - i this) sk this
  end.

(** [signature_destroy]: the enumerator is gone afterwards. *)
Definition signature_destroy (this : signature_enumerator_t) : M unit :=
  DESTROY_IF (auth this).

(** The [enumerator_t] interface, with the two implementations the file
    hands out. *)
Inductive enumerator_t : Type :=
| empty_enumerator
| signature_enumerator (e : signature_enumerator_t).

(** Modelled from the spec: [enumerator_create_empty] of
    utils/enumerator.c is not part of the sources.  It is the enumerator
    that signals end-of-sequence at once and does nothing else. *)
Definition enumerator_create_empty : enumerator_t := empty_enumerator.

(** [enumerator->enumerate(enumerator, &out)] *)
Definition enumerate (e : enumerator_t)
    : M (option auth_ptr * enumerator_t) :=
  match e with
  | empty_enumerator => ret (None, empty_enumerator)
  | signature_enumerator this =>
      r <- signature_enumerate this ;;
      ret (fst r, signature_enumerator (snd r))
  end.

(** [enumerator->destroy(enumerator)] *)
Definition enumerator_destroy (e : enumerator_t) : M unit :=
  match e with
  | empty_enumerator => ret tt
  | signature_enumerator this => signature_destroy this
  end.

(** ** The container *)

(** [private_openssl_pkcs7_t], once [parse] has filled it in. *)
Record private_openssl_pkcs7_t : Type := {
  type : container_type_t;
  cms : CMS_ContentInfo
}.

Definition create_signature_enumerator (this : private_openssl_pkcs7_t)
    : enumerator_t :=
  match type this with
  | CONTAINER_PKCS7_SIGNED_DATA =>
      signature_enumerator
        {| signers := CMS_get0_SignerInfos (cms this);
           i := 0;
           auth := None;
           full_cms := cms this |}
  | _ => enumerator_create_empty
  end.

Definition get_type (this : private_openssl_pkcs7_t) : container_type_t :=
  type this.

(** [get_attribute]: FALSE, [*value] not written. *)
Definition get_attribute (this : private_openssl_pkcs7_t) (oid : known_oid)
    (enumerator : enumerator_t) : option chunk_t :=
  None.

Definition create_cert_enumerator (this : private_openssl_pkcs7_t)
    : enumerator_t :=
  enumerator_create_empty.

(** [get_data]: [Some c] is the return of TRUE with [*data = c]; [None]
    is the return of FALSE, [*data] not written. *)
Definition get_data (this : private_openssl_pkcs7_t)
    : M (option owned_chunk) :=
  match type this with
  | CONTAINER_PKCS7_DATA
  | CONTAINER_PKCS7_SIGNED_DATA =>
      match CMS_get0_content (cms this) with
      | Some os =>
          data <- chunk_clone (openssl_asn1_str2chunk os) ;;
          ret (Some data)
      | None => ret None
      end
  | CONTAINER_PKCS7_ENVELOPED_DATA => ret None   (* TODO: decrypt *)
  | _ => ret None
  end.

(** [get_encoding]: FALSE, [*data] not written. *)
Definition get_encoding (this : private_openssl_pkcs7_t)
    : option owned_chunk :=
  None.

(** [parse] on the zeroed object of [create_empty]: the object it has
    filled in when it returns TRUE, nothing when it returns FALSE. *)
Definition parse (blob : chunk_t) : option private_openssl_pkcs7_t :=
  match d2i_CMS_bio blob with
  | None => None
  | Some c =>
      match openssl_asn1_known_oid (CMS_get0_type c) with
      | OID_PKCS7_DATA =>
          Some {| type := CONTAINER_PKCS7_DATA; cms := c |}
      | OID_PKCS7_SIGNED_DATA =>
          Some {| type := CONTAINER_PKCS7_SIGNED_DATA; cms := c |}
      | OID_PKCS7_ENVELOPED_DATA =>
          Some {| type := CONTAINER_PKCS7_ENVELOPED_DATA; cms := c |}
      | _ => None
      end
  end.

(** The builder arguments of [openssl_pkcs7_load], up to the part that
    ends the [while] loop. *)
Inductive va_list : Type :=
| BUILD_BLOB_ASN1_DER (blob : chunk_t) (rest : va_list)
| BUILD_END
| BUILD_other.

(** The [while (TRUE)] loop over the arguments: the last blob given, or
    nothing when a part is not understood. *)
Fixpoint read_args (blob : chunk_t) (args : va_list) : option chunk_t :=
  match args with
  | BUILD_BLOB_ASN1_DER b rest => read_args b rest
  | BUILD_END => Some blob
  | BUILD_other => None
  end.

(** [openssl_pkcs7_load]: [None] is NULL. *)
Definition openssl_pkcs7_load (ty : container_type_t) (args : va_list)
    : option private_openssl_pkcs7_t :=
  match read_args chunk_empty args with
  | None => None
  | Some blob =>
      if negb (List.length blob =? 0) then parse blob else None
  end.

(** [load(blob)], as callers build a container from an encoding. *)
Definition load (blob : chunk_t) : option private_openssl_pkcs7_t :=
  openssl_pkcs7_load CONTAINER_PKCS7 (BUILD_BLOB_ASN1_DER blob BUILD_END).

(** The operations a caller has on a loaded container. *)
Inductive operation : Type :=
| op_get_type
| op_create_signature_enumerator
| op_get_attribute (oid : known_oid) (e : enumerator_t)
| op_create_cert_enumerator
| op_get_data
| op_get_encoding.

(** One operation: the container it leaves.  No method of the file
    assigns a field of [this]. *)
Definition perform (op : operation) (this : private_openssl_pkcs7_t)
    : M private_openssl_pkcs7_t :=
  match op with
  | op_get_type => let _ := get_type this in ret this
  | op_create_signature_enumerator =>
      let _ := create_signature_enumerator this in ret this
  | op_get_attribute oid e => let _ := get_attribute this oid e in ret this
  | op_create_cert_enumerator =>
      let _ := create_cert_enumerator this in ret this
  | op_get_data => get_data this ;;; ret this
  | op_get_encoding => let _ := get_encoding this in ret this
  end.

Fixpoint perform_all (ops : list operation) (this : private_openssl_pkcs7_t)
    : M private_openssl_pkcs7_t :=
  match ops with
  | [] => ret this
  | op :: ops' => this' <- perform op this ;; perform_all ops' this'
  end.

(** [n] successive calls of [enumerate]: what each returned, and the
    enumerator and the world they leave. *)
Fixpoint advance (n : nat) (e : enumerator_t) (w : world)
    : list (option auth_ptr) * (enumerator_t * world) :=
  match n with
  | O => ([], (e, w))
  | S n' =>
      let '((r, e'), w') := enumerate e w in
      let (rs, final) := advance n' e' w' in
      (r :: rs, final)
  end.

(** ** The vocabulary of the properties *)

(** Extraction of the issuer and serial identity: the issuer and the
    key identifier built from the serial number. *)
Definition signer_identity (si : CMS_SignerInfo)
    : option (identification_t * identification_t) :=
  match CMS_SignerInfo_get0_signer_id (sid si) with
  | None => None
  | Some (name, snr) =>
      match openssl_x509_name2id name with
      | None => None
      | Some issuer =>
          Some (issuer,
                identification_create_from_encoding
                  ID_KEY_ID (openssl_asn1_str2chunk snr))
      end
  end.

(** The re-encoded signed attributes: their encodings in order, wrapped
    in an ASN.1 SET. *)
Definition reencoded_attributes (si : CMS_SignerInfo) : chunk_t :=
  asn1_wrap 0x31
    (List.concat (map openssl_i2chunk_X509_ATTRIBUTE (signedAttrs si))).

(** A candidate of the trust store verifies a signer: its issuer is the
    claimed one, it has a public key, and the key verifies the signature
    over the re-encoded attributes. *)
Definition candidate_verifies (issuer : identification_t)
    (hash_oid : known_oid) (si : CMS_SignerInfo)
    (c : certificate_t * auth_cfg_t) : bool :=
  id_equals issuer (get_issuer (fst c)) &&
  match get_public_key (fst c) with
  | Some key =>
      key_verify key (signature_scheme_from_oid hash_oid)
        (reencoded_attributes si) (openssl_asn1_str2chunk (signature si))
  | None => false
  end.

(** The authorization context of the first trusted candidate that
    verifies the signer. *)
Definition resolve (si : CMS_SignerInfo) (hash_oid : known_oid)
    : option auth_cfg_t :=
  match signer_identity si with
  | None => None
  | Some (issuer, serial) =>
      option_map snd
        (find (candidate_verifies issuer hash_oid si)
              (create_trusted_enumerator KEY_RSA serial false))
  end.

(** The declared messageDigest attribute of a signer. *)
Definition declared_digest (si : CMS_SignerInfo) : option chunk_t :=
  option_map openssl_asn1_str2chunk
    (CMS_signed_get0_data_by_OBJ si
       (OBJ_nid2obj NID_pkcs9_messageDigest) (-3) V_ASN1_OCTET_STRING).

(** The hash of the content of the container under the algorithm of
    [hash_oid]. *)
Definition content_hash (c : CMS_ContentInfo) (hash_oid : known_oid)
    : option chunk_t :=
  match CMS_get0_content c with
  | None => None
  | Some osp =>
      match create_hasher (hasher_algorithm_from_oid hash_oid) with
      | None => None
      | Some hasher => allocate_hash hasher (openssl_asn1_str2chunk osp)
      end
  end.

(** The declared digest is the hash of the content. *)
Definition digest_matches (c : CMS_ContentInfo) (si : CMS_SignerInfo)
    (hash_oid : known_oid) : bool :=
  match declared_digest si, content_hash c hash_oid with
  | Some digest, Some hash => chunk_equals digest hash
  | _, _ => false
  end.

Definition digest_oid (si : CMS_SignerInfo) : known_oid :=
  openssl_asn1_known_oid (algorithm (digestAlgorithm si)).

Definition signature_oid (si : CMS_SignerInfo) : known_oid :=
  openssl_asn1_known_oid (algorithm (signatureAlgorithm si)).

(** A signer is individually valid, in the words of the specification:
    a correct signature over the re-encoded signed attributes and a
    messageDigest that matches the hash of the content.  The value is the
    authorization context it resolves to. *)
Definition individually_valid (c : CMS_ContentInfo) (si : CMS_SignerInfo)
    : option auth_cfg_t :=
  match resolve si (digest_oid si) with
  | Some a => if digest_matches c si (digest_oid si) then Some a else None
  | None => None
  end.

(** The same, for a signer that declares RSA encryption as its signature
    algorithm. *)
Definition valid_rsa_signer (c : CMS_ContentInfo) (si : CMS_SignerInfo)
    : option auth_cfg_t :=
  if is_rsa_encryption (signature_oid si) then individually_valid c si
  else None.

(** The authorization contexts of the signers that a criterion keeps, in
    the order of the signers. *)
Fixpoint kept (valid : CMS_SignerInfo -> option auth_cfg_t)
    (sk : list CMS_SignerInfo) : list auth_cfg_t :=
  match sk with
  | [] => []
  | si :: sk' =>
      match valid si with
      | Some a => a :: kept valid sk'
      | None => kept valid sk'
      end
  end.

(** What [n] calls return when the enumeration yields the contexts [l]
    and then end-of-sequence for ever. *)
Definition yields_then_ends (l : list auth_cfg_t) (n : nat)
    : list (option auth_cfg_t) :=
  firstn n (map Some l) ++ repeat None (n - List.length l).

(** The enumeration of a signed-data container yields the signers that
    [valid] keeps, each once, in order, and nothing else. *)
Definition enumeration_yields
    (valid : CMS_ContentInfo -> CMS_SignerInfo -> option auth_cfg_t)
    (this : private_openssl_pkcs7_t) : Prop :=
  forall sk, CMS_get0_SignerInfos (cms this) = Some sk ->
  forall n w,
    map (option_map cfg)
        (fst (advance n (create_signature_enumerator this) w))
    = yields_then_ends (kept (valid (cms this)) sk) n.

(** The result the enumerator holds after the events [tr], when it held
    [held] before; [None] when at some point a second result is produced
    while one is still held, or one is released that is not held. *)
Fixpoint in_flight (held : option nat) (tr : list event)
    : option (option nat) :=
  match tr with
  | [] => Some held
  | auth_clone p :: tr' =>
      match held with
      | None => in_flight (Some p) tr'
      | Some _ => None
      end
  | auth_destroy p :: tr' =>
      match held with
      | Some q => if p =? q then in_flight None tr' else None
      | None => None
      end
  | _ :: tr' => in_flight held tr'
  end.

(** What the digest binder reports. *)
Definition digest_diagnostic (c : CMS_ContentInfo) (si : CMS_SignerInfo)
    (hash_oid : known_oid) : list event :=
  match declared_digest si, CMS_get0_content c with
  | Some digest, Some osp =>
      match create_hasher (hasher_algorithm_from_oid hash_oid) with
      | None =>
          [DBG1 "hash algorithm %N not supported"
                [hasher_algorithm_from_oid hash_oid]]
      | Some hasher =>
          match allocate_hash hasher (openssl_asn1_str2chunk osp) with
          | Some hash =>
              if chunk_equals digest hash then []
              else [DBG1 "invalid messageDigest" []]
          | None => []
          end
      end
  | _, _ => []
  end.

(** What [DESTROY_IF] leaves in the trace. *)
Definition released (obj : option auth_ptr) : list event :=
  match obj with
  | Some a => [auth_destroy (addr a)]
  | None => []
  end.

Definition held (obj : option auth_ptr) : option nat :=
  option_map addr obj.

(** The enumerator, one signer further, holding [a]. *)
Definition positioned_after (this : signature_enumerator_t)
    (a : option auth_ptr) : signature_enumerator_t :=
  {| signers := signers this; i := S (i this); auth := a;
     full_cms := full_cms this |}.

(** A call of [signature_enumerate] turns down the signer it is
    positioned at, at the digest binding step: the previous result is
    released, the signature resolves to [a], the binder reports an invalid
    messageDigest, and the call goes on as a call positioned at the next
    signer does. *)
Definition rejected_at_digest_binding (this : signature_enumerator_t)
    (a : auth_cfg_t) (w : world) : Prop :=
  signature_enumerate this w
  = signature_enumerate
      (positioned_after this (Some {| addr := brk w; cfg := a |}))
      {| trace := trace w ++ released (auth this) ++
                  [auth_clone (brk w); DBG1 "invalid messageDigest" []];
         brk := S (brk w) |}.

(** The arguments load a container of type [T], and [T] is what
    [get_type] returns after any operations on it. *)
Definition loads_as (ty : container_type_t) (args : va_list)
    (c : CMS_ContentInfo) (T : container_type_t) : Prop :=
  exists this,
    openssl_pkcs7_load ty args = Some this /\
    cms this = c /\
    get_type this = T /\
    forall ops w, get_type (fst (perform_all ops this w)) = T.

(** The container type that [parse] gives to a content type. *)
Definition type_of_oid (o : known_oid) : option container_type_t :=
  match o with
  | OID_PKCS7_DATA => Some CONTAINER_PKCS7_DATA
  | OID_PKCS7_SIGNED_DATA => Some CONTAINER_PKCS7_SIGNED_DATA
  | OID_PKCS7_ENVELOPED_DATA => Some CONTAINER_PKCS7_ENVELOPED_DATA
  | _ => None
  end.

(** Builder arguments that give the blobs [bs] one after the other and
    then end as [last] does. *)
Definition blobs_then (bs : list chunk_t) (last : va_list) : va_list :=
  fold_right BUILD_BLOB_ASN1_DER last bs.

(** What an enumerator holds. *)
Definition held_by (e : enumerator_t) : option nat :=
  match e with
  | empty_enumerator => None
  | signature_enumerator this => held (auth this)
  end.

(** The world after [n] calls on an enumerator and its destruction. *)
Definition lifetime (n : nat) (e : enumerator_t) (w : world) : world :=
  let (_, final) := advance n e w in
  snd (enumerator_destroy (fst final) (snd final)).

(** The world after more events and [k] more allocations. *)
Definition later (w : world) (tr : list event) (k : nat) : world :=
  {| trace := trace w ++ tr; brk := k + brk w |}.

End Pkcs7.

(** ** A small instance of the collaborators

    Names are numbers, a public key is one byte, a signature is the signed
    bytes behind the byte of the key, the hash of a chunk is its mirror
    image.  It gives the properties below concrete containers to run on. *)
Module Toy.

Record certificate : Type := {
  cert_issuer : nat;
  cert_key : option byte
}.

Definition foreign : Foreign := {|
  ASN1_OBJECT := known_oid;
  ASN1_STRING := chunk_t;
  X509_NAME := nat;
  X509_ATTRIBUTE := Z * chunk_t;
  CMS_SignerIdentifier := option (nat * chunk_t);
  identification_t := nat;
  certificate_t := certificate;
  public_key_t := byte;
  auth_cfg_t := nat;
  signature_scheme_t := known_oid;
  hash_algorithm_t := nat;
  hasher_t := nat
|}.

#[local] Existing Instance foreign.

(** The trust store: five certificates under the same serial. *)
Definition store : list (certificate * nat) :=
  [ ({| cert_issuer := 7; cert_key := None |}, 10);
    ({| cert_issuer := 9; cert_key := Some x41 |}, 20);
    ({| cert_issuer := 7; cert_key := Some x42 |}, 30);
    ({| cert_issuer := 7; cert_key := Some x41 |}, 40);
    ({| cert_issuer := 7; cert_key := Some x41 |}, 50) ].

Definition wrap (tag : Z) (c : chunk_t) : chunk_t :=
  match Byte.of_N (Z.to_N tag), Byte.of_N (N.of_nat (List.length c)) with
  | Some t, Some l => t :: l :: c
  | _, _ => c
  end.

Definition content_type_of_byte (b : byte) : known_oid :=
  match b with
  | x01 => OID_PKCS7_DATA
  | x02 => OID_PKCS7_SIGNED_DATA
  | x03 => OID_PKCS7_ENVELOPED_DATA
  | _ => OID_other (Z.of_N (Byte.to_N b))
  end.

(** The decoder: a sequence tag, a byte for the content type, the
    content. *)
Definition decode (blob : chunk_t) : option (@CMS_ContentInfo foreign) :=
  match blob with
  | x30 :: t :: content =>
      Some {| CMS_get0_type := content_type_of_byte t;
              CMS_get0_content := Some content;
              CMS_get0_SignerInfos :=
                match t with x02 => Some [] | _ => None end |}
  | _ => None
  end.

Definition attribute_value (si : @CMS_SignerInfo foreign) (obj : known_oid)
    : option chunk_t :=
  match obj with
  | OID_other nid =>
      option_map snd (find (fun a => Z.eqb (fst a) nid) (signedAttrs si))
  | _ => None
  end.

Definition collaborators : Collaborators := {|
  openssl_asn1_known_oid := fun o => o;
  openssl_asn1_str2chunk := fun s => s;
  openssl_x509_name2id := fun n => if n =? 0 then None else Some n;
  openssl_i2chunk_X509_ATTRIBUTE := fun a => snd a;
  asn1_wrap := wrap;
  d2i_CMS_bio := decode;
  CMS_SignerInfo_get0_signer_id := fun s => s;
  CMS_signed_get0_data_by_OBJ := fun si obj _ _ => attribute_value si obj;
  OBJ_nid2obj := OID_other;
  NID_pkcs9_messageDigest := 51;
  V_ASN1_OCTET_STRING := 4;
  identification_create_from_encoding := fun _ c => List.length c;
  id_equals := Nat.eqb;
  get_issuer := cert_issuer;
  get_public_key := cert_key;
  key_verify := fun key _ data sig => chunk_equals sig (key :: data);
  signature_scheme_from_oid := fun o => o;
  create_trusted_enumerator := fun kt serial _ =>
    match kt with
    | KEY_RSA => if serial =? 1 then store else []
    | _ => []
    end;
  hasher_algorithm_from_oid := fun o =>
    match o with OID_other n => Z.to_nat n | _ => 0 end;
  create_hasher := fun a => if a =? 0 then None else Some a;
  allocate_hash := fun _ c => Some (rev c)
|}.

#[local] Existing Instance collaborators.

Definition content : chunk_t := [x68; x69].

(** A signer of [content] under the key [x41] of the fourth certificate
    of the store, with the signature algorithm it declares and the
    digest it declares. *)
Definition signer (sig_oid : known_oid) (digest : chunk_t)
    : CMS_SignerInfo :=
  {| version := 1;
     sid := Some (7, [x01]);
     digestAlgorithm := {| algorithm := OID_other 1 |};
     signedAttrs := [(51%Z, digest)];
     signatureAlgorithm := {| algorithm := sig_oid |};
     signature := x41 :: wrap 0x31 digest |}.

Definition good_signer : CMS_SignerInfo :=
  signer OID_RSA_ENCRYPTION [x69; x68].

(** The same signer, declaring another signature algorithm. *)
Definition other_alg_signer : CMS_SignerInfo :=
  signer (OID_other 11) [x69; x68].

(** A signer whose signature verifies over a digest that is not the one
    of [content]. *)
Definition unbound_signer : CMS_SignerInfo :=
  signer OID_RSA_ENCRYPTION [x00; x00].

Definition unbound_other_alg_signer : CMS_SignerInfo :=
  signer (OID_other 11) [x00; x00].

(** A signer whose signature no key of the store verifies. *)
Definition forged_signer : CMS_SignerInfo :=
  {| version := 1;
     sid := Some (7, [x01]);
     digestAlgorithm := {| algorithm := OID_other 1 |};
     signedAttrs := [(51%Z, [x69; x68])];
     signatureAlgorithm := {| algorithm := OID_RSA_ENCRYPTION |};
     signature := [x00] |}.

(** A signer without an issuer and serial identity. *)
Definition anonymous_signer : CMS_SignerInfo :=
  {| version := 3;
     sid := None;
     digestAlgorithm := {| algorithm := OID_other 1 |};
     signedAttrs := [(51%Z, [x69; x68])];
     signatureAlgorithm := {| algorithm := OID_RSA_ENCRYPTION |};
     signature := x41 :: wrap 0x31 [x69; x68] |}.

Definition signed_data (sk : option (list CMS_SignerInfo))
    : private_openssl_pkcs7_t :=
  {| type := CONTAINER_PKCS7_SIGNED_DATA;
     cms := {| CMS_get0_type := OID_PKCS7_SIGNED_DATA;
               CMS_get0_content := Some content;
               CMS_get0_SignerInfos := sk |} |}.

Definition enveloped_data : private_openssl_pkcs7_t :=
  {| type := CONTAINER_PKCS7_ENVELOPED_DATA;
     cms := {| CMS_get0_type := OID_PKCS7_ENVELOPED_DATA;
               CMS_get0_content := None;
               CMS_get0_SignerInfos := None |} |}.

Definition w0 : world := {| trace := []; brk := 0 |}.

(** Two signers out of six are valid and declare RSA encryption. *)
Definition mixed_signers : list CMS_SignerInfo :=
  [forged_signer; good_signer; other_alg_signer; unbound_signer;
   good_signer; anonymous_signer].

(** The enumerator of a container, standing at its first signer. *)
Definition at_first (sk : list CMS_SignerInfo) : signature_enumerator_t :=
  {| signers := Some sk; i := 0; auth := None;
     full_cms := cms (signed_data (Some sk)) |}.

(** An enumerator that holds the result at address 5. *)
Definition holding : signature_enumerator_t :=
  {| signers := Some [unbound_signer; good_signer]; i := 0;
     auth := Some {| addr := 5; cfg := 40 |};
     full_cms := cms (signed_data None) |}.

(** An enumerator that has yielded its only signer. *)
Definition at_end : signature_enumerator_t :=
  {| signers := Some [good_signer]; i := 1;
     auth := Some {| addr := 0; cfg := 40 |};
     full_cms := cms (signed_data None) |}.

End Toy.

(** * The attestation state of a connection (imv_attestation_state.c) *)

Module Imv.

(** [request_t]: a PTS file or directory measurement request.  [id] is a
    [u_int16_t], [file_id] an [int]. *)
Record request_t : Type := {
  id : Z;
  file_id : Z;
  is_dir : bool
}.

(** What the state takes from libtnccs, libpts, the settings and the
    lexer of utils/lexparser.h. *)
Class Surroundings : Type := {
  pts_t : Type;
  pts_create : bool -> pts_t;
  set_platform_info : pts_t -> string -> pts_t;
  handshake_state_t : Type;
  IMV_ATTESTATION_STATE_INIT : handshake_state_t;
  TNC_CONNECTION_STATE_CREATE : Z;
  TNC_IMV_ACTION_RECOMMENDATION_NO_RECOMMENDATION : Z;
  TNC_IMV_EVALUATION_RESULT_DONT_KNOW : Z;
  (* [eat_whitespace(&src)]: what it returns, and [src] afterwards *)
  eat_whitespace : chunk_t -> bool * chunk_t;
  (* [extract_token(&token, termination, &src)]: what it returns, the
     token, and [src] afterwards *)
  extract_token : byte -> chunk_t -> bool * chunk_t * chunk_t
}.

Section State.
Context {Sur : Surroundings}.

(** [private_imv_attestation_state_t]; [request_counter] is a
    [u_int16_t]. *)
Record private_imv_attestation_state_t : Type := {
  connection_id : Z;
  state : Z;
  handshake_state : handshake_state_t;
  rec : Z;
  eval : Z;
  request_counter : Z;
  requests : list request_t;
  pts : pts_t
}.

(** [entry_t] and the table of reason strings. *)
Record entry_t : Type := { lang : string; string_ : string }.

Definition reasons : list entry_t :=
  [ {| lang := "en";
       string_ :=
         "IMC Attestation Measurement/s of requested file didn't match" |};
    {| lang := "mn";
       string_ :=
         "IMC Attestation Шалгахаар тохируулсан файлуудын хэмжилтүүд таарсангүй" |};
    {| lang := "de";
       string_ :=
         "IMC Attestation Messung/en von angefordeten Datein stimmt nicht überein" |} ].

(** [chunk_create(s, strlen(s))] *)
Definition chunk_of_string (s : string) : chunk_t := list_byte_of_string s.

Definition get_connection_id (this : private_imv_attestation_state_t) : Z :=
  connection_id this.

Definition change_state (this : private_imv_attestation_state_t)
    (new_state : Z) : private_imv_attestation_state_t :=
  {| connection_id := connection_id this; state := new_state;
     handshake_state := handshake_state this; rec := rec this;
     eval := eval this; request_counter := request_counter this;
     requests := requests this; pts := pts this |}.

Definition get_recommendation (this : private_imv_attestation_state_t)
    : Z * Z :=
  (rec this, eval this).

Definition set_recommendation (this : private_imv_attestation_state_t)
    (rec' eval' : Z) : private_imv_attestation_state_t :=
  {| connection_id := connection_id this; state := state this;
     handshake_state := handshake_state this; rec := rec';
     eval := eval'; request_counter := request_counter this;
     requests := requests this; pts := pts this |}.

Definition get_handshake_state (this : private_imv_attestation_state_t)
    : handshake_state_t :=
  handshake_state this.

Definition set_handshake_state (this : private_imv_attestation_state_t)
    (new_state : handshake_state_t) : private_imv_attestation_state_t :=
  {| connection_id := connection_id this; state := state this;
     handshake_state := new_state; rec := rec this;
     eval := eval this; request_counter := request_counter this;
     requests := requests this; pts := pts this |}.

Definition get_pts (this : private_imv_attestation_state_t) : pts_t :=
  pts this.

(** The [while] loop that eats trailing whitespace, on the bytes of the
    token from the last one backwards: it stops at the first byte that is
    not a space, or when the length is zero. *)
Fixpoint eat_trailing (backwards : list byte) : list byte :=
  match backwards with
  | x20 :: rest => eat_trailing rest
  | _ => backwards
  end.

Definition trim_trailing (pref_lang : chunk_t) : chunk_t :=
  rev (eat_trailing (rev pref_lang)).

(** The [for] loop over the table: the first entry of the language. *)
Fixpoint find_reason (pref_lang : chunk_t) (table : list entry_t)
    : option entry_t :=
  match table with
  | [] => None
  | e :: table' =>
      if chunk_equals (chunk_of_string (lang e)) pref_lang then Some e
      else find_reason pref_lang table'
  end.

(** [get_reason_string]: the reason string and the reason language it
    writes when it returns (it only returns TRUE); [None] when the [while]
    loop has not ended after [fuel] rounds. *)
Fixpoint get_reason_string (fuel : nat) (preferred_language : chunk_t)
    : option (chunk_t * chunk_t) :=
  match fuel with
  | O => None
  | S fuel' =>
      let (more, preferred_language) := eat_whitespace preferred_language in
      if more then
        let '(extracted, token, preferred_language) :=
          extract_token x2c preferred_language in
        let pref_lang :=
          if extracted then token
          else (* last entry in a comma-separated list or single entry *)
            preferred_language in
        let pref_lang := trim_trailing pref_lang in
        match find_reason pref_lang reasons with
        | Some e =>
            Some (chunk_of_string (string_ e), chunk_of_string (lang e))
        | None => get_reason_string fuel' preferred_language
        end
      else
        (* no preferred language match found - use the default language *)
        match reasons with
        | e :: _ =>
            Some (chunk_of_string (string_ e), chunk_of_string (lang e))
        | [] => None
        end
  end.

(** The first entry of a list of preferred languages, as the first round
    of the loop of [get_reason_string] takes it from the lexer, before its
    trailing whitespace is eaten. *)
Definition first_entry (preferred_language : chunk_t) : chunk_t :=
  let '(extracted, token, rest) :=
    extract_token x2c (snd (eat_whitespace preferred_language)) in
  if extracted then token else rest.

(** What [get_reason_string] writes for an entry of the table. *)
Definition reason_of (e : entry_t) : chunk_t * chunk_t :=
  (chunk_of_string (string_ e), chunk_of_string (lang e)).

(** [u_int16_t] arithmetic. *)
Definition u16 (z : Z) : Z := z mod 65536.

(** [add_request]: the identifier it returns and the state it leaves. *)
Definition add_request (this : private_imv_attestation_state_t)
    (file_id' : Z) (is_dir' : bool) : Z * private_imv_attestation_state_t :=
  let counter := u16 (request_counter this + 1) in
  let request := {| id := counter; file_id := file_id'; is_dir := is_dir' |} in
  (counter,
   {| connection_id := connection_id this; state := state this;
      handshake_state := handshake_state this; rec := rec this;
      eval := eval this; request_counter := counter;
      requests := requests this ++ [request]; pts := pts this |}).

(** The [while] loop of [check_off_request] over the list: what it writes
    to [*file_id] and [*is_dir] when it finds the request, and the list
    without the request it has removed. *)
Fixpoint check_off (id' : Z) (l : list request_t)
    : option (Z * bool) * list request_t :=
  match l with
  | [] => (None, [])
  | request :: l' =>
      if id request =? id' then (Some (file_id request, is_dir request), l')
      else
        let (found, l'') := check_off id' l' in
        (found, request :: l'')
  end%Z.

(** [check_off_request]: [Some (file_id, is_dir)] is the return of TRUE
    with the two outputs written, [None] the return of FALSE. *)
Definition check_off_request (this : private_imv_attestation_state_t)
    (id' : Z) : option (Z * bool) * private_imv_attestation_state_t :=
  let (found, l) := check_off id' (requests this) in
  (found,
   {| connection_id := connection_id this; state := state this;
      handshake_state := handshake_state this; rec := rec this;
      eval := eval this; request_counter := request_counter this;
      requests := l; pts := pts this |}).

Definition get_request_count (this : private_imv_attestation_state_t) : Z :=
  Z.of_nat (List.length (requests this)).

(** [imv_attestation_state_create]; [platform_info] is what the settings
    hold under libimcv.plugins.imv-attestation.platform_info. *)
Definition imv_attestation_state_create (connection_id' : Z)
    (platform_info : option string) : private_imv_attestation_state_t :=
  let pts0 := pts_create false in
  {| connection_id := connection_id';
     state := TNC_CONNECTION_STATE_CREATE;
     handshake_state := IMV_ATTESTATION_STATE_INIT;
     rec := TNC_IMV_ACTION_RECOMMENDATION_NO_RECOMMENDATION;
     eval := TNC_IMV_EVALUATION_RESULT_DONT_KNOW;
     request_counter := 0;
     requests := [];
     pts := match platform_info with
            | Some info => set_platform_info pts0 info
            | None => pts0
            end |}.

(** A call on the requests of a state. *)
Inductive call : Type :=
| call_add_request (file_id' : Z) (is_dir' : bool)
| call_check_off_request (id' : Z).

Definition perform_call (this : private_imv_attestation_state_t) (c : call)
    : private_imv_attestation_state_t :=
  match c with
  | call_add_request f d => snd (add_request this f d)
  | call_check_off_request k => snd (check_off_request this k)
  end.

Definition perform_calls (calls : list call)
    (this : private_imv_attestation_state_t)
    : private_imv_attestation_state_t :=
  fold_left perform_call calls this.

(** How many requests a list of calls adds. *)
Fixpoint additions (calls : list call) : nat :=
  match calls with
  | [] => 0
  | call_add_request _ _ :: calls' => S (additions calls')
  | call_check_off_request _ :: calls' => additions calls'
  end.

(** A state with the given counter and pending requests. *)
Definition with_requests (this : private_imv_attestation_state_t)
    (counter : Z) (l : list request_t) : private_imv_attestation_state_t :=
  {| connection_id := connection_id this; state := state this;
     handshake_state := handshake_state this; rec := rec this;
     eval := eval this; request_counter := counter;
     requests := l; pts := pts this |}.

(** The identifiers of the pending requests are those given so far, and
    no two pending requests share one, when the counter has not yet gone
    round. *)
Definition identifiers_in_use (this : private_imv_attestation_state_t)
    (n : nat) : Prop :=
  request_counter this = Z.of_nat n /\
  NoDup (map id (requests this)) /\
  forall r, In r (requests this) -> (1 <= id r <= Z.of_nat n)%Z.

End State.

(** A lexer in the manner of utils/lexparser.c, and nothing behind the
    other operations. *)
Fixpoint skip_blanks (src : chunk_t) : chunk_t :=
  match src with
  | x20 :: src' => skip_blanks src'
  | x09 :: src' => skip_blanks src'
  | _ => src
  end.

Fixpoint split_at (termination : byte) (src : chunk_t)
    : option (chunk_t * chunk_t) :=
  match src with
  | [] => None
  | b :: src' =>
      if Byte.eqb b termination then Some ([], src')
      else
        match split_at termination src' with
        | Some (token, rest) => Some (b :: token, rest)
        | None => None
        end
  end.

Definition toy : Surroundings := {|
  pts_t := list string;
  pts_create := fun _ => [];
  set_platform_info := fun p info => info :: p;
  handshake_state_t := nat;
  IMV_ATTESTATION_STATE_INIT := 0;
  TNC_CONNECTION_STATE_CREATE := 0;
  TNC_IMV_ACTION_RECOMMENDATION_NO_RECOMMENDATION := 3;
  TNC_IMV_EVALUATION_RESULT_DONT_KNOW := 4;
  eat_whitespace := fun src =>
    let src' := skip_blanks src in
    (match src' with [] => false | x23 :: _ => false | _ => true end, src');
  extract_token := fun termination src =>
    match split_at termination src with
    | Some (token, rest) => (true, token, rest)
    | None => (false, [], src)
    end
|}.

(** A request added, and then as many times as [n] a request added and
    checked off at once, the identifiers being those [add_request] gives
    from a counter at [counter]. *)
Fixpoint add_and_check_off (n : nat) (counter : Z) : list call :=
  match n with
  | O => []
  | S n' =>
      call_add_request 0 false
      :: call_check_off_request (u16 (counter + 1))
      :: add_and_check_off n' (u16 (counter + 1))
  end.

(** A fresh state, three requests pending, one request pending, and the
    state in which the counter has gone round while this one was pending. *)
Definition fresh : @private_imv_attestation_state_t toy :=
  @imv_attestation_state_create toy 1 None.

Definition three_pending : @private_imv_attestation_state_t toy :=
  perform_calls
    [call_add_request 10 false; call_add_request 20 true;
     call_add_request 30 false] fresh.

Definition one_pending : @private_imv_attestation_state_t toy :=
  snd (add_request fresh 5 true).

Definition gone_round : @private_imv_attestation_state_t toy :=
  perform_calls (add_and_check_off (Z.to_nat 65535) 1) one_pending.

Definition bytes_of (s : string) : chunk_t := list_byte_of_string s.

End Imv.

(** * The local policy store (local_policy_store.c) *)

Module Policy.

(** The two values of [status_t] the store returns. *)
Inductive status_t : Type := SUCCESS | NOT_FOUND.

(** Policies, identities and traffic selectors, as the store sees them:
    a policy is the pointer the list holds, with the methods the store
    calls on it.  [matches a b] is [Some wildcards] when [a->matches(a, b,
    &wildcards)] returns TRUE. *)
Class Surroundings : Type := {
  policy_t : Type;
  identification_t : Type;
  host_t : Type;
  traffic_selector_t : Type;
  get_name : policy_t -> string;
  get_my_id : policy_t -> identification_t;
  get_other_id : policy_t -> identification_t;
  select_my_traffic_selectors :
    policy_t -> list traffic_selector_t -> host_t -> list traffic_selector_t;
  select_other_traffic_selectors :
    policy_t -> list traffic_selector_t -> host_t -> list traffic_selector_t;
  matches : identification_t -> identification_t -> option Z;
  MAX_WILDCARDS : Z
}.

Section Store.
Context {Sur : Surroundings}.

(** What a call does to the mutex and to the policies, and what it
    logs (the format of the message, at its level). *)
Inductive event : Type :=
| mutex_lock
| mutex_unlock
| get_ref (p : policy_t)
| policy_destroy (p : policy_t)
| DBG (level : nat) (fmt : string).

(** [private_local_policy_store_t]: the list of policies; the state of
    the mutex is in the events. *)
Record private_local_policy_store_t : Type := {
  policies : list policy_t
}.

Definition local_policy_store_create : private_local_policy_store_t :=
  {| policies := [] |}.

Definition add_policy (this : private_local_policy_store_t)
    (policy : policy_t) : private_local_policy_store_t * list event :=
  ({| policies := policies this ++ [policy] |}, [mutex_lock; mutex_unlock]).

Definition contains_traffic_selectors (policy : policy_t) (mine : bool)
    (ts : list traffic_selector_t) (host : host_t) : bool :=
  let selected :=
    if mine then select_my_traffic_selectors policy ts host
    else select_other_traffic_selectors policy ts host in
  negb (List.length selected =? 0).

(** [prio_t] *)
Definition PRIO_UNDEFINED : Z := 0.
Definition PRIO_ID_ANY : Z := 1.
Definition PRIO_ID_MATCH : Z := PRIO_ID_ANY + MAX_WILDCARDS.

(** The [while] loop of [get_policy] over the iterator: the policy found,
    its priority, and what the loop logs. *)
Fixpoint get_policy_loop (my_id other_id : identification_t)
    (my_ts other_ts : list traffic_selector_t) (my_host other_host : host_t)
    (iterator : list policy_t) (found : option policy_t) (best_prio : Z)
    : option policy_t * Z * list event :=
  match iterator with
  | [] => (found, best_prio, [])
  | candidate :: rest =>
      let continue := get_policy_loop my_id other_id my_ts other_ts
                        my_host other_host rest in
      let candidate_my_id := get_my_id candidate in
      let candidate_other_id := get_other_id candidate in
      (* my_id is either %any or if set must match exactly *)
      match matches candidate_my_id my_id with
      | Some _ =>
          (* wildcard match for other_id *)
          let prio :=
            match matches other_id candidate_other_id with
            | Some wildcards => PRIO_ID_MATCH - wildcards
            | None => PRIO_UNDEFINED
            end in
          (* only accept if traffic selectors match *)
          if negb (contains_traffic_selectors candidate true my_ts my_host)
             || negb (contains_traffic_selectors candidate false
                        other_ts other_host)
          then
            let '(f, b, ev) := continue found best_prio in
            (f, b,
             DBG 2 "candidate '%s' inacceptable due traffic selector mismatch"
             :: ev)
          else
            let '(f, b, ev) :=
              if prio >? best_prio then continue (Some candidate) prio
              else continue found best_prio in
            (f, b,
             DBG 2 "candidate policy '%s': '%D'...'%D' (prio=%d)" :: ev)
      | None => continue found best_prio
      end
  end%Z.

(** [get_policy]: the policy it returns, or NULL, and what it does. *)
Definition get_policy (this : private_local_policy_store_t)
    (my_id other_id : identification_t)
    (my_ts other_ts : list traffic_selector_t) (my_host other_host : host_t)
    : option policy_t * list event :=
  let '(found, best_prio, ev) :=
    get_policy_loop my_id other_id my_ts other_ts my_host other_host
      (policies this) None PRIO_UNDEFINED in
  (found,
   [DBG 2 "searching policy for ID pair '%D'...'%D'"; mutex_lock]
   ++ ev
   ++ match found with
      | Some p =>
          [DBG 1 "found matching policy '%s': '%D'...'%D' (prio=%d)";
           get_ref p]
      | None => []
      end
   ++ [mutex_unlock]).

(** The [while] loop of [get_policy_by_name]. *)
Fixpoint by_name_loop (name : string) (iterator : list policy_t)
    (found : option policy_t) : option policy_t :=
  match iterator with
  | [] => found
  | current :: rest =>
      if String.eqb (get_name current) name
      then by_name_loop name rest (Some current)
      else by_name_loop name rest found
  end.

(** How [get_policy_by_name] ends: it returns a policy, or it calls
    [get_ref] through the NULL pointer. *)
Inductive by_name_result : Type :=
| returns (p : policy_t)
| null_dereference.

Definition get_policy_by_name (this : private_local_policy_store_t)
    (name : string) : by_name_result * list event :=
  let found := by_name_loop name (policies this) None in
  let ev := [DBG 2 "looking for policy '%s'"; mutex_lock; mutex_unlock] in
  match found with
  | Some p => (returns p, ev ++ [get_ref p])
  | None => (null_dereference, ev)
  end.

(** The [while] loop of [delete_policy]: the list that is left, the
    policies destroyed, and whether one was found. *)
Fixpoint delete_loop (name : string) (iterator : list policy_t)
    : list policy_t * list event * bool :=
  match iterator with
  | [] => ([], [], false)
  | current :: rest =>
      let '(remaining, ev, found) := delete_loop name rest in
      if String.eqb (get_name current) name
      then (remaining, policy_destroy current :: ev, true)
      else (current :: remaining, ev, found)
  end.

Definition delete_policy (this : private_local_policy_store_t)
    (name : string) : status_t * private_local_policy_store_t * list event :=
  let '(remaining, ev, found) := delete_loop name (policies this) in
  (if found then SUCCESS else NOT_FOUND,
   {| policies := remaining |},
   [mutex_lock] ++ ev ++ [mutex_unlock]).


(** ** The vocabulary of the properties *)

(** A candidate that [get_policy] accepts for a request. *)
Definition acceptable (my_id other_id : identification_t)
    (my_ts other_ts : list traffic_selector_t) (my_host other_host : host_t)
    (p : policy_t) : Prop :=
  matches (get_my_id p) my_id <> None /\
  matches other_id (get_other_id p) <> None /\
  select_my_traffic_selectors p my_ts my_host <> [] /\
  select_other_traffic_selectors p other_ts other_host <> [].

(** A candidate whose own identity matches and whose traffic selectors
    match: the loop of [get_policy] compares its priority. *)
Definition eligible (my_id : identification_t)
    (my_ts other_ts : list traffic_selector_t) (my_host other_host : host_t)
    (c : policy_t) : bool :=
  match matches (get_my_id c) my_id with
  | Some _ =>
      contains_traffic_selectors c true my_ts my_host
      && contains_traffic_selectors c false other_ts other_host
  | None => false
  end.

(** The priority the loop of [get_policy] gives to a candidate. *)
Definition prio_of (other_id : identification_t) (c : policy_t) : Z :=
  match matches other_id (get_other_id c) with
  | Some wildcards => PRIO_ID_MATCH - wildcards
  | None => PRIO_UNDEFINED
  end%Z.

(** One round of the loop of [get_policy], on the policy found so far
    and its priority. *)
Definition round (my_id other_id : identification_t)
    (my_ts other_ts : list traffic_selector_t) (my_host other_host : host_t)
    (acc : option policy_t * Z) (c : policy_t) : option policy_t * Z :=
  if eligible my_id my_ts other_ts my_host other_host c
     && (prio_of other_id c >? snd acc)%Z
  then (Some c, prio_of other_id c)
  else acc.

(** The wildcards of the match of the other identity. *)
Definition wildcards_of (other_id : identification_t) (p : policy_t) : Z :=
  match matches other_id (get_other_id p) with
  | Some wildcards => wildcards
  | None => 0
  end.

(** The mutex after some events, when it was locked or not before;
    [None] when it is locked while locked or unlocked while free. *)
Fixpoint mutex_after (locked : bool) (ev : list event) : option bool :=
  match ev with
  | [] => Some locked
  | mutex_lock :: ev' => if locked then None else mutex_after true ev'
  | mutex_unlock :: ev' => if locked then mutex_after false ev' else None
  | _ :: ev' => mutex_after locked ev'
  end.

(** The policies a reference is taken on, and the policies destroyed. *)
Fixpoint referenced (ev : list event) : list policy_t :=
  match ev with
  | [] => []
  | get_ref p :: ev' => p :: referenced ev'
  | _ :: ev' => referenced ev'
  end.

Fixpoint destroyed (ev : list event) : list policy_t :=
  match ev with
  | [] => []
  | policy_destroy p :: ev' => p :: destroyed ev'
  | _ :: ev' => destroyed ev'
  end.

Definition is_log (e : event) : bool :=
  match e with
  | DBG _ _ => true
  | _ => false
  end.

Definition has_name (name : string) (p : policy_t) : bool :=
  String.eqb (get_name p) name.

End Store.

(** A store of numbered policies: the name, the two identities and the
    traffic selectors of a policy are its fields; an identity is a number,
    and every identity matches 0, with one wildcard. *)
Record toy_policy : Type := {
  toy_name : string;
  toy_my_id : nat;
  toy_other_id : nat;
  toy_selectors : list nat
}.

Definition toy_matches (a b : nat) : option Z :=
  if b =? 0 then Some 1%Z
  else if a =? b then Some 0%Z
  else None.

Definition toy : Surroundings := {|
  policy_t := toy_policy;
  identification_t := nat;
  host_t := unit;
  traffic_selector_t := nat;
  get_name := toy_name;
  get_my_id := toy_my_id;
  get_other_id := toy_other_id;
  select_my_traffic_selectors := fun p ts _ =>
    filter (fun t => existsb (Nat.eqb t) (toy_selectors p)) ts;
  select_other_traffic_selectors := fun p ts _ =>
    filter (fun t => existsb (Nat.eqb t) (toy_selectors p)) ts;
  matches := toy_matches;
  MAX_WILDCARDS := 14
|}.

Definition any_peer : toy_policy :=
  {| toy_name := "any"; toy_my_id := 1; toy_other_id := 0;
     toy_selectors := [80; 443] |}.

Definition peer_7 : toy_policy :=
  {| toy_name := "peer"; toy_my_id := 1; toy_other_id := 7;
     toy_selectors := [80] |}.

Definition peer_7_again : toy_policy :=
  {| toy_name := "peer"; toy_my_id := 1; toy_other_id := 7;
     toy_selectors := [80; 443] |}.

Definition peer_9 : toy_policy :=
  {| toy_name := "nine"; toy_my_id := 1; toy_other_id := 9;
     toy_selectors := [80] |}.

Definition four_policies : @private_local_policy_store_t toy :=
  @Build_private_local_policy_store_t toy
    [any_peer; peer_7; peer_7_again; peer_9].

Definition one_policy : @private_local_policy_store_t toy :=
  @Build_private_local_policy_store_t toy [any_peer].

End Policy.

(** ** Properties *)

Section Properties.
Context {F : Foreign} {C : Collaborators}.

Lemma later_nil w : later w [] 0 = w.
Proof. destruct w; unfold later; simpl. now rewrite app_nil_r. Qed.

Lemma later_later w tr1 k1 tr2 k2 :
  later (later w tr1 k1) tr2 k2 = later w (tr1 ++ tr2) (k2 + k1).
Proof.
  unfold later; simpl. f_equal.
  - now rewrite app_assoc.
  - lia.
Qed.

Lemma emit_run e w : emit e w = (tt, later w [e] 0).
Proof. reflexivity. Qed.

Lemma clone_run a w :
  clone a w
  = ({| addr := brk w; cfg := a |}, later w [auth_clone (brk w)] 1).
Proof. reflexivity. Qed.

Lemma DESTROY_IF_run obj w :
  DESTROY_IF obj w
  = (tt, later w (match obj with
                  | Some a => [auth_destroy (addr a)]
                  | None => []
                  end) 0).
Proof.
  destruct obj; simpl.
  - reflexivity.
  - now rewrite later_nil.
Qed.

Lemma DESTROY_IF_released obj w :
  DESTROY_IF obj w = (tt, later w (released obj) 0).
Proof. apply DESTROY_IF_run. Qed.

Lemma chunk_equals_true a b : chunk_equals a b = true <-> a = b.
Proof.
  unfold chunk_equals. destruct (list_eq_dec byte_eq_dec a b);
    split; congruence.
Qed.

(** *** The signer resolver *)

Lemma cat_attrs_concat l : forall acc,
  cat_attrs acc l
  = acc ++ List.concat (map openssl_i2chunk_X509_ATTRIBUTE l).
Proof.
  induction l as [|a l IH]; intros acc; simpl.
  - now rewrite app_nil_r.
  - rewrite IH. unfold chunk_cat. now rewrite <- app_assoc.
Qed.

Lemma scan_trusted_find issuer hash_oid si enumerator w :
  scan_trusted issuer hash_oid (reencoded_attributes si)
    (openssl_asn1_str2chunk (signature si)) enumerator w
  = match find (candidate_verifies issuer hash_oid si) enumerator with
    | Some c =>
        (Some {| addr := brk w; cfg := snd c |},
         later w [auth_clone (brk w)] 1)
    | None => (None, w)
    end.
Proof.
  induction enumerator as [|[cert a] rest IH]; simpl.
  - reflexivity.
  - unfold candidate_verifies at 1; simpl.
    destruct (id_equals issuer (get_issuer cert)); simpl; [|exact IH].
    destruct (get_public_key cert) as [key|]; [|exact IH].
    destruct (key_verify _ _ _ _); [|exact IH].
    reflexivity.
Qed.

Lemma verify_signature_run si hash_oid w :
  verify_signature si hash_oid w
  = match resolve si hash_oid with
    | Some a =>
        (Some {| addr := brk w; cfg := a |},
         later w [auth_clone (brk w)] 1)
    | None => (None, w)
    end.
Proof.
  unfold verify_signature, resolve, signer_identity.
  destruct (CMS_SignerInfo_get0_signer_id (sid si)) as [[name snr]|];
    [|reflexivity].
  destruct (openssl_x509_name2id name) as [issuer|]; [|reflexivity].
  rewrite cat_attrs_concat. simpl app.
  fold (reencoded_attributes si).
  rewrite scan_trusted_find.
  now destruct (find _ _).
Qed.

Lemma find_first {A} (f : A -> bool) pre c post :
  (forall x, In x pre -> f x = false) -> f c = true ->
  find f (pre ++ c :: post) = Some c.
Proof.
  induction pre as [|x pre IH]; intros Hpre Hc; simpl.
  - now rewrite Hc.
  - rewrite (Hpre x) by now left.
    apply IH; [|assumption]. intros y Hy. apply Hpre. now right.
Qed.

Lemma find_none_all {A} (f : A -> bool) l :
  (forall x, In x l -> f x = false) -> find f l = None.
Proof.
  induction l as [|x l IH]; intros H; simpl.
  - reflexivity.
  - rewrite (H x) by now left. apply IH. intros y Hy. apply H. now right.
Qed.

(** C2.  The resolver returns nothing, and leaves no trace, when the
    issuer and serial identity of the signer cannot be extracted.
    Otherwise it goes through the candidates of the trust store in
    their order: when a candidate verifies the signer (its issuer is the
    claimed issuer and its public key verifies the signature over the
    re-encoded attributes) and no candidate before it does, the result is
    one clone of the authorization context of that candidate, whatever
    candidates come after it; when no candidate verifies, the result is
    nothing. *)
Theorem verify_signature_first_match si hash_oid w :
  (signer_identity si = None ->
   verify_signature si hash_oid w = (None, w)) /\
  (forall issuer serial, signer_identity si = Some (issuer, serial) ->
     (forall pre cert a post,
        create_trusted_enumerator KEY_RSA serial false
        = pre ++ (cert, a) :: post ->
        (forall c, In c pre ->
                   candidate_verifies issuer hash_oid si c = false) ->
        candidate_verifies issuer hash_oid si (cert, a) = true ->
        verify_signature si hash_oid w
        = (Some {| addr := brk w; cfg := a |},
           later w [auth_clone (brk w)] 1)) /\
     ((forall c, In c (create_trusted_enumerator KEY_RSA serial false) ->
                 candidate_verifies issuer hash_oid si c = false) ->
      verify_signature si hash_oid w = (None, w))).
Proof.
  split; [|intros issuer serial Hid; split].
  - intros Hid. rewrite verify_signature_run. unfold resolve.
    now rewrite Hid.
  - intros pre cert a post Hsplit Hpre Hc.
    rewrite verify_signature_run. unfold resolve.
    rewrite Hid, Hsplit, (find_first _ pre (cert, a) post Hpre Hc).
    reflexivity.
  - intros Hall. rewrite verify_signature_run. unfold resolve.
    rewrite Hid, (find_none_all _ _ Hall). reflexivity.
Qed.

(** *** The digest binder *)

Lemma verify_digest_run c si hash_oid w :
  verify_digest c si hash_oid w
  = (digest_matches c si hash_oid,
     later w (digest_diagnostic c si hash_oid) 0).
Proof.
  unfold verify_digest, digest_matches, digest_diagnostic, declared_digest,
    content_hash.
  destruct (CMS_signed_get0_data_by_OBJ _ _ _ _) as [os|]; simpl;
    [|now rewrite later_nil].
  destruct (CMS_get0_content c) as [osp|]; simpl; [|now rewrite later_nil].
  destruct (create_hasher _) as [hasher|]; simpl; [|reflexivity].
  destruct (allocate_hash _ _) as [hash|]; simpl; [|now rewrite later_nil].
  destruct (chunk_equals _ _); simpl; [now rewrite later_nil|reflexivity].
Qed.

(** C4.  The digest binder returns true exactly when the signer
    declares a messageDigest attribute, the content of the container is
    there, the digest algorithm has a hasher, and the hash of the content
    is the declared digest, byte for byte.  An algorithm without a hasher
    is reported by one diagnostic, a digest that differs from the hash by
    another one, invalid messageDigest; both return false. *)
Theorem verify_digest_iff c si hash_oid w :
  (fst (verify_digest c si hash_oid w) = true <->
   exists os osp hasher hash,
     CMS_signed_get0_data_by_OBJ si (OBJ_nid2obj NID_pkcs9_messageDigest)
       (-3) V_ASN1_OCTET_STRING = Some os /\
     CMS_get0_content c = Some osp /\
     create_hasher (hasher_algorithm_from_oid hash_oid) = Some hasher /\
     allocate_hash hasher (openssl_asn1_str2chunk osp) = Some hash /\
     openssl_asn1_str2chunk os = hash) /\
  (forall os osp,
     CMS_signed_get0_data_by_OBJ si (OBJ_nid2obj NID_pkcs9_messageDigest)
       (-3) V_ASN1_OCTET_STRING = Some os ->
     CMS_get0_content c = Some osp ->
     (create_hasher (hasher_algorithm_from_oid hash_oid) = None ->
      verify_digest c si hash_oid w
      = (false,
         later w [DBG1 "hash algorithm %N not supported"
                       [hasher_algorithm_from_oid hash_oid]] 0)) /\
     (forall hasher hash,
        create_hasher (hasher_algorithm_from_oid hash_oid) = Some hasher ->
        allocate_hash hasher (openssl_asn1_str2chunk osp) = Some hash ->
        openssl_asn1_str2chunk os <> hash ->
        verify_digest c si hash_oid w
        = (false, later w [DBG1 "invalid messageDigest" []] 0))) /\
  DBG1 "hash algorithm %N not supported" [hasher_algorithm_from_oid hash_oid]
  <> DBG1 "invalid messageDigest" [].
Proof.
  split; [|split].
  - unfold verify_digest.
    destruct (CMS_signed_get0_data_by_OBJ _ _ _ _) as [os|] eqn:Hos; simpl.
    2:{ split; [discriminate|]. intros (? & ? & ? & ? & H & _).
        discriminate. }
    destruct (CMS_get0_content c) as [osp|] eqn:Hosp; simpl.
    2:{ split; [discriminate|]. intros (? & ? & ? & ? & _ & H & _).
        discriminate. }
    destruct (create_hasher _) as [hasher|] eqn:Hh; simpl.
    2:{ split; [discriminate|]. intros (? & ? & ? & ? & _ & _ & H & _).
        discriminate. }
    destruct (allocate_hash _ _) as [hash|] eqn:Ha; simpl.
    2:{ split; [discriminate|].
        intros (? & ? & ? & ? & _ & H1 & H2 & H3 & _).
        congruence. }
    destruct (chunk_equals _ _) eqn:Heq; simpl.
    + split; [|reflexivity]. intros _.
      exists os, osp, hasher, hash.
      apply chunk_equals_true in Heq. now repeat split.
    + split; [discriminate|].
      intros (os' & osp' & hasher' & hash' & H1 & H2 & H3 & H4 & H5).
      assert (openssl_asn1_str2chunk os = hash) as E by congruence.
      apply chunk_equals_true in E. congruence.
  - intros os osp Hos Hosp. split.
    + intros Hh. rewrite verify_digest_run.
      unfold digest_matches, digest_diagnostic, declared_digest,
        content_hash.
      now rewrite Hos, Hosp, Hh.
    + intros hasher hash Hh Ha Hne. rewrite verify_digest_run.
      unfold digest_matches, digest_diagnostic, declared_digest,
        content_hash.
      rewrite Hos, Hosp, Hh, Ha. simpl.
      destruct (chunk_equals _ _) eqn:Heq; [|reflexivity].
      apply chunk_equals_true in Heq. contradiction.
  - discriminate.
Qed.

Lemma digest_matches_silent c si hash_oid :
  digest_matches c si hash_oid = true ->
  digest_diagnostic c si hash_oid = [].
Proof.
  unfold digest_matches, digest_diagnostic, content_hash.
  destruct (declared_digest si) as [digest|]; [|reflexivity].
  destruct (CMS_get0_content c) as [osp|]; [|reflexivity].
  destruct (create_hasher _) as [hasher|]; [|discriminate].
  destruct (allocate_hash _ _) as [hash|]; [|reflexivity].
  now intros ->.
Qed.

(** *** The signature enumerator *)

Lemma skipn_nth_error {A} (l : list A) : forall n x,
  nth_error l n = Some x -> skipn n l = x :: skipn (S n) l.
Proof.
  induction l as [|y l IH]; intros [|n] x H; simpl in *; try discriminate.
  - congruence.
  - now apply IH.
Qed.

(** One round of the loop on the signer at the current position. *)
Lemma enumerate_loop_round f sk this si w :
  nth_error sk (i this) = Some si ->
  enumerate_loop (S f) sk this w
  = if negb (is_rsa_encryption (signature_oid si)) then
      enumerate_loop f sk (positioned_after this None)
        (later w (released (auth this) ++
                  [DBG1 "only RSA digest encryption supported" []]) 0)
    else
      match resolve si (digest_oid si) with
      | None =>
          enumerate_loop f sk (positioned_after this None)
            (later w (released (auth this) ++
                      [DBG1 "unable to verify pkcs7 attributes signature"
                            []]) 0)
      | Some a =>
          let p := {| addr := brk w; cfg := a |} in
          if digest_matches (full_cms this) si (digest_oid si) then
            (Some p, positioned_after this (Some p),
             later w (released (auth this) ++ [auth_clone (brk w)]) 1)
          else
            enumerate_loop f sk (positioned_after this (Some p))
              (later w (released (auth this) ++ [auth_clone (brk w)] ++
                        digest_diagnostic (full_cms this) si (digest_oid si))
                     1)
      end.
Proof.
  intros Hsi.
  assert (i this < List.length sk) as Hlt
    by (apply nth_error_Some; congruence).
  cbn [enumerate_loop]. unfold sk_CMS_SignerInfo_num.
  apply Nat.ltb_lt in Hlt. rewrite Hlt.
  unfold bind at 1. rewrite DESTROY_IF_released.
  cbn [i signers auth full_cms]. unfold sk_CMS_SignerInfo_value.
  rewrite Hsi. cbn [CMS_SignerInfo_get0_algs].
  fold (signature_oid si). fold (digest_oid si).
  fold (positioned_after this None).
  destruct (is_rsa_encryption (signature_oid si)); cbn [negb].
  - unfold bind at 1. rewrite verify_signature_run.
    destruct (resolve si (digest_oid si)) as [a|].
    + cbn [i signers auth full_cms positioned_after].
      unfold bind at 1. rewrite verify_digest_run.
      cbn [later brk trace Nat.add].
      destruct (digest_matches _ _ _) eqn:Hm; cbn [negb].
      * rewrite (digest_matches_silent _ _ _ Hm).
        unfold ret, later, positioned_after; simpl.
        now rewrite app_nil_r, <- app_assoc.
      * unfold later, positioned_after; simpl.
        now rewrite <- !app_assoc.
    + unfold bind, dbg1. rewrite emit_run, later_later.
      reflexivity.
  - unfold bind, dbg1. rewrite emit_run, later_later. reflexivity.
Qed.

Lemma enumerate_loop_end f sk this w :
  List.length sk <= i this ->
  enumerate_loop f sk this w = (None, this, w).
Proof.
  intros H. destruct f; cbn [enumerate_loop]; unfold sk_CMS_SignerInfo_num;
    apply Nat.ltb_ge in H; now rewrite H.
Qed.

(** The fuel of [signature_enumerate] is enough: with at least as many
    rounds as there are signers left, the loop ends by its own test, and
    more fuel changes nothing. *)
Lemma enumerate_loop_fuel f : forall g sk this w,
  List.length sk - i this <= f ->
  List.length sk - i this <= g ->
  enumerate_loop f sk this w = enumerate_loop g sk this w.
Proof.
  induction f as [|f IH]; intros g sk this w Hf Hg.
  - rewrite !enumerate_loop_end by lia. reflexivity.
  - destruct g as [|g]; [rewrite !enumerate_loop_end by lia; reflexivity|].
    destruct (nth_error sk (i this)) as [si|] eqn:Hsi.
    + rewrite !(enumerate_loop_round _ _ _ _ Hsi).
      assert (forall a w',
                enumerate_loop f sk (positioned_after this a) w'
                = enumerate_loop g sk (positioned_after this a) w') as Hnext
        by (intros a w'; apply IH; cbn [positioned_after i]; lia).
      destruct (is_rsa_encryption (signature_oid si)); cbn [negb];
        [|apply Hnext].
      destruct (resolve si (digest_oid si)); [|apply Hnext].
      cbv zeta. destruct (digest_matches _ _ _); [reflexivity|apply Hnext].
    + apply nth_error_None in Hsi.
      rewrite !enumerate_loop_end by assumption. reflexivity.
Qed.

Lemma kept_at valid sk n si :
  nth_error sk n = Some si ->
  kept valid (skipn n sk)
  = match valid si with
    | Some a => a :: kept valid (skipn (S n) sk)
    | None => kept valid (skipn (S n) sk)
    end.
Proof. intros H. now rewrite (skipn_nth_error _ _ H). Qed.

(** What a run of the loop returns, in terms of the signers that are
    left: the first one that is valid and declares RSA encryption, the
    enumerator then standing behind it; or nothing when there is none,
    the enumerator then standing at the end. *)
Lemma enumerate_loop_kept f : forall sk this w r this' w',
  List.length sk - i this <= f ->
  enumerate_loop f sk this w = (r, this', w') ->
  signers this' = signers this /\ full_cms this' = full_cms this /\
  match r with
  | Some p =>
      kept (valid_rsa_signer (full_cms this)) (skipn (i this) sk)
      = cfg p :: kept (valid_rsa_signer (full_cms this)) (skipn (i this') sk)
  | None =>
      kept (valid_rsa_signer (full_cms this)) (skipn (i this) sk) = [] /\
      List.length sk <= i this'
  end.
Proof.
  induction f as [|f IH]; intros sk this w r this' w' Hf Hrun.
  2: pose proof (fun a w => IH sk (positioned_after this a) w r this' w')
       as IHnext; cbn [positioned_after signers i full_cms] in IHnext.
  - assert (List.length sk <= i this) as Hend by lia.
    rewrite (enumerate_loop_end _ _ _ _ Hend) in Hrun.
    injection Hrun as <- <- <-.
    rewrite skipn_all2 by assumption. now repeat split.
  - destruct (nth_error sk (i this)) as [si|] eqn:Hsi.
    + rewrite (enumerate_loop_round _ _ _ _ Hsi) in Hrun.
      rewrite (kept_at _ _ _ Hsi).
      assert (List.length sk - S (i this) <= f) as Hf' by lia.
      set (V := valid_rsa_signer (full_cms this)) in *.
      assert (V si
              = if is_rsa_encryption (signature_oid si) then
                  match resolve si (digest_oid si) with
                  | Some a =>
                      if digest_matches (full_cms this) si (digest_oid si)
                      then Some a else None
                  | None => None
                  end
                else None) as -> by reflexivity.
      revert Hrun.
      destruct (is_rsa_encryption (signature_oid si)); cbn [negb];
        [|exact (IHnext _ _ Hf')].
      destruct (resolve si (digest_oid si)) as [a|];
        [|exact (IHnext _ _ Hf')].
      destruct (digest_matches _ _ _); [|exact (IHnext _ _ Hf')].
      intros Hrun. injection Hrun as <- <- <-. now repeat split.
    + apply nth_error_None in Hsi.
      rewrite (enumerate_loop_end _ _ _ _ Hsi) in Hrun.
      injection Hrun as <- <- <-.
      rewrite skipn_all2 by assumption. now repeat split.
Qed.

Lemma signature_enumerate_kept this sk w r this' w' :
  signers this = Some sk ->
  signature_enumerate this w = (r, this', w') ->
  signers this' = Some sk /\ full_cms this' = full_cms this /\
  match r with
  | Some p =>
      kept (valid_rsa_signer (full_cms this)) (skipn (i this) sk)
      = cfg p :: kept (valid_rsa_signer (full_cms this)) (skipn (i this') sk)
  | None =>
      kept (valid_rsa_signer (full_cms this)) (skipn (i this) sk) = [] /\
      List.length sk <= i this'
  end.
Proof.
  intros Hsk Hrun. unfold signature_enumerate in Hrun. rewrite Hsk in Hrun.
  apply enumerate_loop_kept in Hrun; [|unfold sk_CMS_SignerInfo_num; lia].
  destruct Hrun as (H1 & H2 & H3). rewrite H1. now repeat split.
Qed.

Lemma yields_then_ends_cons a l n :
  yields_then_ends (a :: l) (S n) = Some a :: yields_then_ends l n.
Proof. reflexivity. Qed.

Lemma yields_then_ends_nil n :
  yields_then_ends [] (S n) = None :: yields_then_ends [] n.
Proof.
  unfold yields_then_ends. cbn [map firstn Nat.sub List.length app repeat].
  now rewrite firstn_nil, Nat.sub_0_r.
Qed.

Lemma advance_signature_kept n : forall this sk w,
  signers this = Some sk ->
  map (option_map cfg) (fst (advance n (signature_enumerator this) w))
  = yields_then_ends
      (kept (valid_rsa_signer (full_cms this)) (skipn (i this) sk)) n.
Proof.
  induction n as [|n IH]; intros this sk w Hsk.
  - reflexivity.
  - cbn [advance enumerate]. unfold bind at 1.
    destruct (signature_enumerate this w) as [[r this'] w'] eqn:Hrun.
    cbn [ret fst snd].
    destruct (signature_enumerate_kept _ _ Hsk Hrun) as (Hsk' & Hcms & Hr).
    specialize (IH this' sk w' Hsk').
    destruct (advance n (signature_enumerator this') w') as [rs final].
    cbn [fst map] in *. rewrite IH, Hcms.
    destruct r as [p|].
    + rewrite Hr. now rewrite yields_then_ends_cons.
    + destruct Hr as [Hr Hend]. rewrite Hr.
      rewrite skipn_all2 by assumption.
      now rewrite yields_then_ends_nil.
Qed.

(** C1, as amended.  Repeated calls on the enumerator of a signed-data
    container yield, in the order of the signers, the authorization
    context of every signer that declares RSA encryption as its signature
    algorithm, whose signature a trusted candidate verifies over the
    re-encoded attributes and whose messageDigest is the hash of the
    content; each such signer is yielded once, every other signer is
    passed over wherever it stands, and after the last result every call
    signals end-of-sequence. *)
Theorem enumerate_valid_rsa_signers this :
  type this = CONTAINER_PKCS7_SIGNED_DATA ->
  enumeration_yields valid_rsa_signer this.
Proof.
  intros Hty sk Hsk n w. unfold create_signature_enumerator.
  rewrite Hty.
  now rewrite (advance_signature_kept n _ w (sk := sk)).
Qed.

Lemma digest_mismatch_diagnostic c si hash_oid digest hash :
  declared_digest si = Some digest ->
  content_hash c hash_oid = Some hash ->
  digest <> hash ->
  digest_matches c si hash_oid = false /\
  digest_diagnostic c si hash_oid = [DBG1 "invalid messageDigest" []].
Proof.
  intros Hd Hh Hne. unfold digest_matches, digest_diagnostic.
  rewrite Hd, Hh. unfold content_hash in Hh.
  destruct (CMS_get0_content c) as [osp|]; [|discriminate].
  destruct (create_hasher _) as [hasher|]; [|discriminate].
  rewrite Hh.
  destruct (chunk_equals digest hash) eqn:E.
  - apply chunk_equals_true in E. contradiction.
  - now split.
Qed.

(** C3, as amended.  When the enumerator stands at a signer that
    declares RSA encryption as its signature algorithm, whose signature a
    trusted candidate verifies, and whose declared messageDigest is not
    the hash of the content, the call turns the signer down at the digest
    binding step: the signature has resolved (the authorization context
    is cloned), the diagnostic is invalid messageDigest, which is not the
    diagnostic of a failed resolution, and the call goes on with the next
    signer instead of returning this one. *)
Theorem digest_mismatch_rejected_at_binding this sk si a digest hash w :
  signers this = Some sk ->
  nth_error sk (i this) = Some si ->
  is_rsa_encryption (signature_oid si) = true ->
  resolve si (digest_oid si) = Some a ->
  declared_digest si = Some digest ->
  content_hash (full_cms this) (digest_oid si) = Some hash ->
  digest <> hash ->
  rejected_at_digest_binding this a w /\
  DBG1 "invalid messageDigest" []
  <> DBG1 "unable to verify pkcs7 attributes signature" [].
Proof.
  intros Hsk Hsi Hrsa Hres Hd Hh Hne. split; [|discriminate].
  unfold rejected_at_digest_binding, signature_enumerate.
  cbn [positioned_after signers i]. rewrite Hsk.
  assert (i this < List.length sk) as Hlt
    by (apply nth_error_Some; congruence).
  unfold sk_CMS_SignerInfo_num.
  replace (List.length sk - i this) with (S (List.length sk - S (i this)))
    by lia.
  rewrite (enumerate_loop_round _ _ _ _ Hsi), Hrsa, Hres. cbn [negb].
  destruct (digest_mismatch_diagnostic _ _ _ Hd Hh Hne) as [-> ->].
  reflexivity.
Qed.

(** *** End of sequence *)

Lemma signature_enumerate_end this sk w :
  signers this = Some sk ->
  List.length sk <= i this ->
  signature_enumerate this w = (None, this, w).
Proof.
  intros Hsk Hend. unfold signature_enumerate. rewrite Hsk.
  now apply enumerate_loop_end.
Qed.

Lemma signature_enumerate_absent this w :
  signers this = None ->
  signature_enumerate this w = (None, this, w).
Proof. intros H. unfold signature_enumerate. now rewrite H. Qed.

Lemma advance_end n : forall e w,
  enumerate e w = (None, e, w) ->
  advance n e w = (repeat None n, (e, w)).
Proof.
  induction n as [|n IH]; intros e w H; cbn [advance repeat].
  - reflexivity.
  - now rewrite H, (IH e w H).
Qed.

Lemma enumerate_signature_end this w :
  signature_enumerate this w = (None, this, w) ->
  enumerate (signature_enumerator this) w
  = (None, signature_enumerator this, w).
Proof.
  intros H. cbn [enumerate]. unfold bind. now rewrite H.
Qed.

(** C8.  The enumerator of a container that is not signed-data signals
    end-of-sequence at every call and changes nothing.  A signature
    enumerator whose position has reached the number of signers signals
    end-of-sequence at every call, and stays as it is; and once a call of
    a signature enumerator has signalled end-of-sequence, every later
    call does. *)
Theorem end_of_sequence_is_final :
  (forall this n w,
     type this <> CONTAINER_PKCS7_SIGNED_DATA ->
     advance n (create_signature_enumerator this) w
     = (repeat None n, (create_signature_enumerator this, w))) /\
  (forall this sk n w,
     signers this = Some sk ->
     List.length sk <= i this ->
     advance n (signature_enumerator this) w
     = (repeat None n, (signature_enumerator this, w))) /\
  (forall this w this' w' n,
     signature_enumerate this w = (None, this', w') ->
     advance n (signature_enumerator this') w'
     = (repeat None n, (signature_enumerator this', w'))).
Proof.
  split; [|split].
  - intros this n w Hty. apply advance_end.
    unfold create_signature_enumerator.
    destruct (type this); try reflexivity. contradiction.
  - intros this sk n w Hsk Hend. apply advance_end.
    apply enumerate_signature_end.
    now apply signature_enumerate_end with sk.
  - intros this w this' w' n Hrun. apply advance_end.
    apply enumerate_signature_end.
    destruct (signers this) as [sk|] eqn:Hsk.
    + destruct (signature_enumerate_kept _ _ Hsk Hrun)
        as (Hsk' & _ & _ & Hend).
      now apply signature_enumerate_end with sk.
    + rewrite (signature_enumerate_absent _ _ Hsk) in Hrun.
      injection Hrun as <- <-.
      now apply signature_enumerate_absent.
Qed.

(** C10.  When the decoded structure of a signed-data container has no
    collection of signer infos, every call on its enumerator signals
    end-of-sequence at once: the enumerator and the world stay as they
    are, no signer is looked at. *)
Theorem absent_signers_enumerate_nothing this n w :
  type this = CONTAINER_PKCS7_SIGNED_DATA ->
  CMS_get0_SignerInfos (cms this) = None ->
  create_signature_enumerator this
  = signature_enumerator
      {| signers := None; i := 0; auth := None; full_cms := cms this |} /\
  advance n (create_signature_enumerator this) w
  = (repeat None n, (create_signature_enumerator this, w)).
Proof.
  intros Hty Hsk. unfold create_signature_enumerator.
  rewrite Hty, Hsk. split; [reflexivity|].
  now apply advance_end.
Qed.

(** *** One result in flight *)

Lemma in_flight_app tr1 : forall h h1 tr2,
  in_flight h tr1 = Some h1 ->
  in_flight h (tr1 ++ tr2) = in_flight h1 tr2.
Proof.
  induction tr1 as [|e tr1 IH]; intros h h1 tr2 H; simpl in *.
  - congruence.
  - destruct e; try (now apply IH).
    + destruct h; [discriminate|]. now apply IH.
    + destruct h as [q|]; [|discriminate].
      destruct (p =? q); [|discriminate]. now apply IH.
Qed.

Lemma in_flight_released obj :
  in_flight (held obj) (released obj) = Some None.
Proof.
  destruct obj as [a|]; simpl; [|reflexivity].
  now rewrite Nat.eqb_refl.
Qed.

Lemma in_flight_diagnostic c si hash_oid h :
  in_flight h (digest_diagnostic c si hash_oid) = Some h.
Proof.
  unfold digest_diagnostic.
  destruct (declared_digest si); [|reflexivity].
  destruct (CMS_get0_content c); [|reflexivity].
  destruct (create_hasher _); [|reflexivity].
  destruct (allocate_hash _ _); [|reflexivity].
  now destruct (chunk_equals _ _).
Qed.

(** The events of a run of the loop: when a round takes place, first the
    release of what is held, then events that start with nothing held. *)
Lemma enumerate_loop_in_flight f : forall sk this w r this' w',
  enumerate_loop f sk this w = (r, this', w') ->
  (forall p, r = Some p -> auth this' = Some p) /\
  ((this' = this /\ w' = w /\ r = None) \/
   exists tr k,
     w' = later w (released (auth this) ++ tr) k /\
     in_flight None tr = Some (held (auth this'))).
Proof.
  induction f as [|f IH]; intros sk this w r this' w' Hrun.
  - cbn [enumerate_loop] in Hrun.
    destruct (i this <? sk_CMS_SignerInfo_num sk);
      injection Hrun as <- <- <-; (split; [discriminate|now left]).
  - destruct (nth_error sk (i this)) as [si|] eqn:Hsi.
    + rewrite (enumerate_loop_round _ _ _ _ Hsi) in Hrun.
      assert (forall a ev k,
                in_flight None ev = Some (held a) ->
                enumerate_loop f sk (positioned_after this a)
                  (later w (released (auth this) ++ ev) k) = (r, this', w') ->
                (forall p, r = Some p -> auth this' = Some p) /\
                ((this' = this /\ w' = w /\ r = None) \/
                 exists tr k,
                   w' = later w (released (auth this) ++ tr) k /\
                   in_flight None tr = Some (held (auth this'))))
        as Hnext.
      { intros a ev k Hev Hloop. apply IH in Hloop.
        destruct Hloop as [Hp Hloop]. split; [exact Hp|]. right.
        cbn [positioned_after auth] in Hloop.
        destruct Hloop as [(-> & -> & _)|(tr & k' & -> & Htr)].
        - exists ev, k. now split.
        - exists (ev ++ released a ++ tr), (k' + k).
          rewrite later_later, <- app_assoc. split; [reflexivity|].
          rewrite (in_flight_app _ _ _ Hev).
          now rewrite (in_flight_app _ _ _ (in_flight_released a)). }
      revert Hrun.
      destruct (is_rsa_encryption (signature_oid si)); cbn [negb];
        [|now apply Hnext].
      destruct (resolve si (digest_oid si)) as [a|]; [|now apply Hnext].
      cbv zeta.
      destruct (digest_matches _ _ _).
      * intros Hrun. injection Hrun as <- <- <-.
        split; [now intros p [= <-]|]. right.
        exists [auth_clone (brk w)], 1. now split.
      * apply Hnext. cbn [app in_flight held option_map addr].
        apply in_flight_diagnostic.
    + apply nth_error_None in Hsi.
      rewrite (enumerate_loop_end _ _ _ _ Hsi) in Hrun.
      injection Hrun as <- <- <-. split; [discriminate|now left].
Qed.

(** C9.  Over the events of a call of the enumerator, starting from the
    result it holds, there is never a second result while one is held and
    nothing is released that is not held; a call that looks at a signer
    first releases the result held, so that whatever it produces is
    produced with nothing held; what it returns is what it holds
    afterwards.  Destroying the enumerator releases the result held, and
    nothing is held afterwards. *)
Theorem at_most_one_in_flight this w :
  (forall r this' w',
     signature_enumerate this w = (r, this', w') ->
     (forall p, r = Some p -> auth this' = Some p) /\
     (exists tr k,
        w' = later w tr k /\
        in_flight (held (auth this)) tr = Some (held (auth this'))) /\
     (forall sk, signers this = Some sk -> i this < List.length sk ->
        exists tr k,
          w' = later w (released (auth this) ++ tr) k /\
          in_flight None tr = Some (held (auth this')))) /\
  (exists tr,
     signature_destroy this w = (tt, later w tr 0) /\
     in_flight (held (auth this)) tr = Some None).
Proof.
  split.
  - intros r this' w' Hrun. unfold signature_enumerate in Hrun.
    destruct (signers this) as [sk|] eqn:Hsk.
    + pose proof Hrun as Hkept.
      apply enumerate_loop_kept in Hkept;
        [|unfold sk_CMS_SignerInfo_num; lia].
      apply enumerate_loop_in_flight in Hrun.
      destruct Hrun as [Hp Hrun]. split; [exact Hp|]. split.
      * destruct Hrun as [(-> & -> & _)|(tr & k & -> & Htr)].
        -- exists [], 0. now rewrite later_nil.
        -- exists (released (auth this) ++ tr), k. split; [reflexivity|].
           now rewrite (in_flight_app _ _ _ (in_flight_released (auth this))).
      * intros sk' [= <-] Hlt.
        destruct Hrun as [(-> & -> & ->)|Hrun]; [|exact Hrun].
        destruct Hkept as (_ & _ & _ & Hend). lia.
    + injection Hrun as <- <- <-. split; [discriminate|]. split.
      * exists [], 0. now rewrite later_nil.
      * discriminate.
  - exists (released (auth this)). split.
    + apply DESTROY_IF_released.
    + apply in_flight_released.
Qed.

(** *** Loading *)

(** C5.  Loading fails, and there is no container, when the bytes do
    not decode (the malformed encoding failure: [d2i_CMS_bio] returns
    NULL), and when they decode to a structure whose content type is none
    of data, signed-data and enveloped-data (the unsupported content type
    failure: the default case of the switch). *)
Theorem load_fails ty args blob :
  read_args chunk_empty args = Some blob ->
  (d2i_CMS_bio blob = None -> openssl_pkcs7_load ty args = None) /\
  (forall c,
     d2i_CMS_bio blob = Some c ->
     openssl_asn1_known_oid (CMS_get0_type c) <> OID_PKCS7_DATA ->
     openssl_asn1_known_oid (CMS_get0_type c) <> OID_PKCS7_SIGNED_DATA ->
     openssl_asn1_known_oid (CMS_get0_type c) <> OID_PKCS7_ENVELOPED_DATA ->
     openssl_pkcs7_load ty args = None).
Proof.
  intros Hargs. unfold openssl_pkcs7_load, parse. rewrite Hargs. split.
  - intros ->. now destruct (negb _).
  - intros c -> H1 H2 H3. destruct (negb _); [|reflexivity].
    destruct (openssl_asn1_known_oid (CMS_get0_type c));
      try reflexivity; contradiction.
Qed.

Lemma perform_same op this w : fst (perform op this w) = this.
Proof.
  destruct op; try reflexivity.
  cbn [perform]. unfold bind. now destruct (get_data this w).
Qed.

Lemma perform_all_same ops : forall this w,
  fst (perform_all ops this w) = this.
Proof.
  induction ops as [|op ops IH]; intros this w; cbn [perform_all].
  - reflexivity.
  - unfold bind. pose proof (perform_same op this w) as H.
    destruct (perform op this w) as [this' w']. cbn [fst] in H.
    subst this'. apply IH.
Qed.

(** C6.  A blob that is not empty and decodes to a structure whose
    content type is data, signed-data or enveloped-data loads as a
    container of that type, and no sequence of operations on the
    container changes what [get_type] returns. *)
Theorem load_fixes_content_type ty args blob c :
  read_args chunk_empty args = Some blob ->
  blob <> [] ->
  d2i_CMS_bio blob = Some c ->
  (openssl_asn1_known_oid (CMS_get0_type c) = OID_PKCS7_DATA ->
   loads_as ty args c CONTAINER_PKCS7_DATA) /\
  (openssl_asn1_known_oid (CMS_get0_type c) = OID_PKCS7_SIGNED_DATA ->
   loads_as ty args c CONTAINER_PKCS7_SIGNED_DATA) /\
  (openssl_asn1_known_oid (CMS_get0_type c) = OID_PKCS7_ENVELOPED_DATA ->
   loads_as ty args c CONTAINER_PKCS7_ENVELOPED_DATA).
Proof.
  intros Hargs Hne Hc.
  assert (negb (List.length blob =? 0) = true) as Hlen
    by (destruct blob; [contradiction|reflexivity]).
  unfold loads_as, openssl_pkcs7_load, parse.
  rewrite Hargs, Hlen, Hc.
  repeat split; intros ->; eexists; (split; [reflexivity|]);
    (split; [reflexivity|]); (split; [reflexivity|]);
    intros ops w; now rewrite perform_all_same.
Qed.

(** *** Content *)

(** C7.  For a data or signed-data container whose content is there,
    [get_data] returns the bytes of the content in a chunk allocated for
    the caller; for an enveloped-data container, for a container of no
    recognized type, and when the content is not there, it returns false,
    writes nothing and allocates nothing. *)
Theorem get_data_copy this w :
  (forall os,
     type this = CONTAINER_PKCS7_DATA \/
     type this = CONTAINER_PKCS7_SIGNED_DATA ->
     CMS_get0_content (cms this) = Some os ->
     get_data this w
     = (Some {| ptr := brk w; bytes := openssl_asn1_str2chunk os |},
        later w [chunk_malloc (brk w)] 1)) /\
  (type this = CONTAINER_PKCS7_ENVELOPED_DATA ->
   get_data this w = (None, w)) /\
  (type this = CONTAINER_PKCS7 -> get_data this w = (None, w)) /\
  (CMS_get0_content (cms this) = None -> get_data this w = (None, w)).
Proof.
  unfold get_data. repeat split.
  - intros os [-> | ->] ->; reflexivity.
  - now intros ->.
  - now intros ->.
  - intros ->. now destruct (type this).
Qed.

End Properties.

(** ** The properties on concrete containers *)

Section Examples.
Import Toy.
#[local] Existing Instance foreign.
#[local] Existing Instance collaborators.

Lemma enumerate_valid_rsa_signers_witness :
  type (signed_data (Some mixed_signers)) = CONTAINER_PKCS7_SIGNED_DATA /\
  map (option_map cfg)
    (fst (advance 4
            (create_signature_enumerator (signed_data (Some mixed_signers)))
            w0))
  = [Some 40; Some 40; None; None].
Proof.
  split; [reflexivity|].
  exact (enumerate_valid_rsa_signers
           (signed_data (Some mixed_signers)) eq_refl eq_refl 4 w0).
Defined.

(** The signer that declares another signature algorithm is valid in the
    words of the specification, and is not yielded. *)
Lemma valid_signer_of_other_algorithm_not_yielded :
  type (signed_data (Some [other_alg_signer]))
  = CONTAINER_PKCS7_SIGNED_DATA /\
  individually_valid (cms (signed_data (Some [other_alg_signer])))
    other_alg_signer = Some 40 /\
  fst (advance 1
         (create_signature_enumerator
            (signed_data (Some [other_alg_signer]))) w0) = [None] /\
  ~ enumeration_yields individually_valid
      (signed_data (Some [other_alg_signer])).
Proof.
  split; [reflexivity|]. split; [reflexivity|]. split; [reflexivity|].
  intros H. specialize (H _ eq_refl 1 w0). vm_compute in H. discriminate.
Qed.

Lemma verify_signature_first_match_witness :
  signer_identity good_signer = Some (7, 1) /\
  create_trusted_enumerator KEY_RSA 1 false
  = firstn 3 store
    ++ ({| cert_issuer := 7; cert_key := Some x41 |}, 40) :: skipn 4 store /\
  verify_signature good_signer (OID_other 1) w0
  = (Some {| addr := 0; cfg := 40 |}, later w0 [auth_clone 0] 1) /\
  verify_signature anonymous_signer (OID_other 1) w0 = (None, w0) /\
  verify_signature forged_signer (OID_other 1) w0 = (None, w0).
Proof.
  split; [reflexivity|]. split; [reflexivity|]. split; [|split].
  - destruct (verify_signature_first_match good_signer (OID_other 1) w0)
      as [_ H].
    destruct (H 7 1 eq_refl) as [H1 _].
    apply (H1 (firstn 3 store) _ 40 (skipn 4 store) eq_refl);
      [|reflexivity].
    intros c Hc. cbn in Hc.
    destruct Hc as [<-|[<-|[<-|[]]]]; reflexivity.
  - destruct (verify_signature_first_match anonymous_signer (OID_other 1) w0)
      as [H _].
    exact (H eq_refl).
  - destruct (verify_signature_first_match forged_signer (OID_other 1) w0)
      as [_ H].
    destruct (H 7 1 eq_refl) as [_ H2]. apply H2.
    intros c Hc. cbn in Hc.
    destruct Hc as [<-|[<-|[<-|[<-|[<-|[]]]]]]; reflexivity.
Defined.

Lemma digest_mismatch_rejected_at_binding_witness :
  rejected_at_digest_binding (at_first [unbound_signer; good_signer]) 40 w0
  /\
  signature_enumerate (at_first [unbound_signer; good_signer]) w0
  = (Some {| addr := 1; cfg := 40 |},
     {| signers := Some [unbound_signer; good_signer]; i := 2;
        auth := Some {| addr := 1; cfg := 40 |};
        full_cms := cms (signed_data
                           (Some [unbound_signer; good_signer])) |},
     {| trace := [auth_clone 0; DBG1 "invalid messageDigest" [];
                  auth_destroy 0; auth_clone 1];
        brk := 2 |}).
Proof.
  split; [|reflexivity].
  refine (proj1 (digest_mismatch_rejected_at_binding
                   (at_first [unbound_signer; good_signer])
                   (si := unbound_signer) (a := 40)
                   (digest := [x00; x00]) (hash := [x69; x68])
                   w0 eq_refl eq_refl eq_refl eq_refl eq_refl eq_refl _)).
  discriminate.
Defined.

(** A signer that declares another signature algorithm, whose signature
    verifies and whose declared digest is not the hash of the content: it
    is turned down before its signature is resolved. *)
Lemma digest_mismatch_of_other_algorithm_not_at_binding :
  signers (at_first [unbound_other_alg_signer])
  = Some [unbound_other_alg_signer] /\
  nth_error [unbound_other_alg_signer]
    (i (at_first [unbound_other_alg_signer]))
  = Some unbound_other_alg_signer /\
  resolve unbound_other_alg_signer (digest_oid unbound_other_alg_signer)
  = Some 40 /\
  declared_digest unbound_other_alg_signer = Some [x00; x00] /\
  content_hash (full_cms (at_first [unbound_other_alg_signer]))
    (digest_oid unbound_other_alg_signer) = Some [x69; x68] /\
  signature_enumerate (at_first [unbound_other_alg_signer]) w0
  = (None,
     {| signers := Some [unbound_other_alg_signer]; i := 1; auth := None;
        full_cms := cms (signed_data (Some [unbound_other_alg_signer])) |},
     {| trace := [DBG1 "only RSA digest encryption supported" []];
        brk := 0 |}) /\
  ~ rejected_at_digest_binding (at_first [unbound_other_alg_signer]) 40 w0.
Proof.
  repeat (split; [reflexivity|]).
  unfold rejected_at_digest_binding. vm_compute. discriminate.
Qed.

Lemma verify_digest_iff_witness :
  fst (verify_digest (cms (signed_data None)) good_signer (OID_other 1) w0)
  = true /\
  verify_digest (cms (signed_data None)) unbound_signer (OID_other 1) w0
  = (false, later w0 [DBG1 "invalid messageDigest" []] 0) /\
  verify_digest (cms (signed_data None)) good_signer (OID_other 0) w0
  = (false, later w0 [DBG1 "hash algorithm %N not supported" [0]] 0).
Proof.
  split; [|split].
  - apply (proj1 (verify_digest_iff (cms (signed_data None)) good_signer
                    (OID_other 1) w0)).
    exists [x69; x68], content, 1, [x69; x68].
    repeat split; reflexivity.
  - destruct (verify_digest_iff (cms (signed_data None)) unbound_signer
                (OID_other 1) w0) as (_ & H & _).
    destruct (H [x00; x00] content eq_refl eq_refl) as [_ H2].
    apply (H2 1 [x69; x68] eq_refl eq_refl). discriminate.
  - destruct (verify_digest_iff (cms (signed_data None)) good_signer
                (OID_other 0) w0) as (_ & H & _).
    destruct (H [x69; x68] content eq_refl eq_refl) as [H1 _].
    exact (H1 eq_refl).
Defined.

Lemma load_fails_witness :
  d2i_CMS_bio [x00] = None /\
  load [x00] = None /\
  d2i_CMS_bio [x30; x09; x68]
  = Some {| CMS_get0_type := OID_other 9;
            CMS_get0_content := Some [x68];
            CMS_get0_SignerInfos := None |} /\
  load [x30; x09; x68] = None.
Proof.
  split; [reflexivity|]. split; [|split; [reflexivity|]].
  - exact (proj1 (load_fails CONTAINER_PKCS7
                    (BUILD_BLOB_ASN1_DER [x00] BUILD_END) eq_refl) eq_refl).
  - apply (proj2 (load_fails CONTAINER_PKCS7
                    (BUILD_BLOB_ASN1_DER [x30; x09; x68] BUILD_END) eq_refl)
             (@Build_CMS_ContentInfo foreign (OID_other 9) (Some [x68]) None));
      [reflexivity|discriminate..].
Defined.

Lemma load_fixes_content_type_witness :
  loads_as CONTAINER_PKCS7
    (BUILD_BLOB_ASN1_DER [x30; x02; x68] BUILD_END)
    {| CMS_get0_type := OID_PKCS7_SIGNED_DATA;
       CMS_get0_content := Some [x68];
       CMS_get0_SignerInfos := Some [] |}
    CONTAINER_PKCS7_SIGNED_DATA /\
  loads_as CONTAINER_PKCS7
    (BUILD_BLOB_ASN1_DER [x30; x01; x68] BUILD_END)
    {| CMS_get0_type := OID_PKCS7_DATA;
       CMS_get0_content := Some [x68];
       CMS_get0_SignerInfos := None |}
    CONTAINER_PKCS7_DATA /\
  loads_as CONTAINER_PKCS7
    (BUILD_BLOB_ASN1_DER [x30; x03; x68] BUILD_END)
    {| CMS_get0_type := OID_PKCS7_ENVELOPED_DATA;
       CMS_get0_content := Some [x68];
       CMS_get0_SignerInfos := None |}
    CONTAINER_PKCS7_ENVELOPED_DATA.
Proof.
  split; [|split].
  - refine (proj1 (proj2 (load_fixes_content_type CONTAINER_PKCS7
                            (BUILD_BLOB_ASN1_DER [x30; x02; x68] BUILD_END)
                            eq_refl _ eq_refl)) eq_refl).
    discriminate.
  - refine (proj1 (load_fixes_content_type CONTAINER_PKCS7
                     (BUILD_BLOB_ASN1_DER [x30; x01; x68] BUILD_END)
                     eq_refl _ eq_refl) eq_refl).
    discriminate.
  - refine (proj2 (proj2 (load_fixes_content_type CONTAINER_PKCS7
                            (BUILD_BLOB_ASN1_DER [x30; x03; x68] BUILD_END)
                            eq_refl _ eq_refl)) eq_refl).
    discriminate.
Defined.

Lemma get_data_copy_witness :
  get_data (signed_data None) w0
  = (Some {| ptr := 0; bytes := content |}, later w0 [chunk_malloc 0] 1) /\
  get_data enveloped_data w0 = (None, w0).
Proof.
  split.
  - exact (proj1 (get_data_copy (signed_data None) w0)
             content (or_intror eq_refl) eq_refl).
  - exact (proj1 (proj2 (get_data_copy enveloped_data w0)) eq_refl).
Defined.

Lemma end_of_sequence_is_final_witness :
  advance 3 (create_signature_enumerator enveloped_data) w0
  = ([None; None; None], (create_signature_enumerator enveloped_data, w0)) /\
  fst (advance 3 (signature_enumerator at_end) (later w0 [auth_clone 0] 1))
  = [None; None; None] /\
  fst (advance 2
         (signature_enumerator
            (snd (fst (signature_enumerate (at_first [forged_signer]) w0))))
         (snd (signature_enumerate (at_first [forged_signer]) w0)))
  = [None; None].
Proof.
  destruct end_of_sequence_is_final as (H1 & H2 & H3).
  split; [|split].
  - apply (H1 enveloped_data 3 w0). discriminate.
  - rewrite (H2 at_end [good_signer] 3 _ eq_refl); [reflexivity|].
    apply le_n.
  - rewrite (H3 (at_first [forged_signer]) w0
               (snd (fst (signature_enumerate (at_first [forged_signer]) w0)))
               (snd (signature_enumerate (at_first [forged_signer]) w0)) 2);
      reflexivity.
Defined.

Lemma at_most_one_in_flight_witness :
  (exists tr k,
     snd (signature_enumerate holding w0) = later w0 (auth_destroy 5 :: tr) k
     /\ in_flight None tr
        = Some (held (auth (snd (fst (signature_enumerate holding w0)))))) /\
  (exists tr,
     signature_destroy holding w0 = (tt, later w0 tr 0) /\
     in_flight (Some 5) tr = Some None).
Proof.
  destruct (at_most_one_in_flight holding w0) as [H1 H2].
  split; [|exact H2].
  destruct (H1 _ _ _ eq_refl) as (_ & _ & H).
  apply (H [unbound_signer; good_signer] eq_refl).
  apply le_n_S, le_S, le_n.
Defined.

Lemma absent_signers_enumerate_nothing_witness :
  type (signed_data None) = CONTAINER_PKCS7_SIGNED_DATA /\
  CMS_get0_SignerInfos (cms (signed_data None)) = None /\
  advance 3 (create_signature_enumerator (signed_data None)) w0
  = ([None; None; None],
     (create_signature_enumerator (signed_data None), w0)).
Proof.
  split; [reflexivity|]. split; [reflexivity|].
  exact (proj2 (absent_signers_enumerate_nothing
                  (signed_data None) 3 w0 eq_refl eq_refl)).
Defined.

End Examples.

(** ** Further properties of the container and of its enumerator *)

Section Lifecycle.
Context {F : Foreign} {C : Collaborators}.

(** X1.  Loading returns a container exactly when the last blob of the
    arguments is not empty, decodes, and has one of the three content
    types; the container then holds the decoded structure, and its type is
    the one of the content type of that structure. *)
Theorem load_some_iff ty args this :
  openssl_pkcs7_load ty args = Some this <->
  exists blob,
    read_args chunk_empty args = Some blob /\
    blob <> [] /\
    d2i_CMS_bio blob = Some (cms this) /\
    type_of_oid (openssl_asn1_known_oid (CMS_get0_type (cms this)))
    = Some (type this).
Proof.
  unfold openssl_pkcs7_load, parse. split.
  - destruct (read_args chunk_empty args) as [blob|]; [|discriminate].
    destruct blob as [|b blob]; [discriminate|]. cbn [List.length Nat.eqb negb].
    destruct (d2i_CMS_bio (b :: blob)) as [c|] eqn:Hc; [|discriminate].
    destruct (openssl_asn1_known_oid (CMS_get0_type c)) eqn:Ho;
      try discriminate; intros H; injection H as <-; exists (b :: blob);
      cbn [cms type]; rewrite Ho; repeat split; try assumption; discriminate.
  - intros (blob & -> & Hne & Hc & Hty).
    destruct blob as [|b blob]; [contradiction|].
    cbn [List.length Nat.eqb negb]. rewrite Hc.
    destruct this as [t c]. cbn [cms type] in *.
    destruct (openssl_asn1_known_oid (CMS_get0_type c));
      cbn [type_of_oid] in Hty; congruence.
Qed.

Lemma last_cons_default {A} (l : list A) : forall a d,
  List.last (a :: l) d = List.last l a.
Proof.
  induction l as [|x l IH]; intros a d.
  - reflexivity.
  - change (List.last (a :: x :: l) d) with (List.last (x :: l) d).
    now rewrite !IH.
Qed.

Lemma read_args_blobs bs : forall blob last,
  read_args blob (blobs_then bs last)
  = read_args (List.last bs blob) last.
Proof.
  induction bs as [|b bs IH]; intros blob last.
  - reflexivity.
  - cbn [blobs_then fold_right read_args]. fold (blobs_then bs last).
    now rewrite IH, last_cons_default.
Qed.

(** X2.  Of the blobs given to [openssl_pkcs7_load] only the last one counts,
    and the container type asked for is not looked at; without any blob,
    and with a part that is neither a blob nor the end, nothing is
    loaded. *)
Theorem load_reads_last_blob ty ty' bs b :
  openssl_pkcs7_load ty (blobs_then (bs ++ [b]) BUILD_END)
  = openssl_pkcs7_load ty' (BUILD_BLOB_ASN1_DER b BUILD_END) /\
  openssl_pkcs7_load ty BUILD_END = None /\
  openssl_pkcs7_load ty (blobs_then bs BUILD_other) = None.
Proof.
  unfold openssl_pkcs7_load. rewrite !read_args_blobs, last_last.
  repeat split.
Qed.

(** X3.  The bytes that the digest binder hashes are the bytes that
    [get_data] hands out: when [get_data] returns a chunk, the binder
    accepts a signer exactly when the signer declares a digest, the digest
    algorithm has a hasher, and the hash of the bytes of that chunk is the
    declared digest. *)
Theorem binder_hashes_what_get_data_returns this si hash_oid w data w' w2 :
  get_data this w = (Some data, w') ->
  (fst (verify_digest (cms this) si hash_oid w2) = true <->
   exists digest hasher,
     declared_digest si = Some digest /\
     create_hasher (hasher_algorithm_from_oid hash_oid) = Some hasher /\
     allocate_hash hasher (bytes data) = Some digest).
Proof.
  intros Hdata.
  assert (exists os, CMS_get0_content (cms this) = Some os /\
                     bytes data = openssl_asn1_str2chunk os) as (os & Hos & Hb).
  { unfold get_data in Hdata.
    destruct (type this); try discriminate;
      (destruct (CMS_get0_content (cms this)) as [os|]; [|discriminate]);
      exists os; injection Hdata as <- _; now split. }
  rewrite verify_digest_run. cbn [fst].
  unfold digest_matches, content_hash. rewrite Hos, Hb.
  destruct (declared_digest si) as [digest|] eqn:Hd.
  2:{ split; [discriminate|]. intros (? & ? & H & _). discriminate. }
  destruct (create_hasher _) as [hasher|] eqn:Hh.
  2:{ split; [discriminate|]. intros (? & ? & _ & H & _). discriminate. }
  destruct (allocate_hash _ _) as [hash|] eqn:Ha.
  2:{ split; [discriminate|]. intros (? & ? & _ & H1 & H2). congruence. }
  rewrite chunk_equals_true. split.
  - intros ->. now exists hash, hasher.
  - intros (d & h & H1 & H2 & H3). congruence.
Qed.

Lemma signature_enumerate_in_flight this w r this' w' :
  signature_enumerate this w = (r, this', w') ->
  (forall p, r = Some p -> auth this' = Some p) /\
  exists tr k,
    w' = later w tr k /\
    in_flight (held (auth this)) tr = Some (held (auth this')).
Proof.
  intros Hrun. unfold signature_enumerate in Hrun.
  destruct (signers this) as [sk|].
  - apply enumerate_loop_in_flight in Hrun.
    destruct Hrun as [Hp [(-> & -> & _)|(tr & k & -> & Htr)]];
      (split; [exact Hp|]).
    + exists [], 0. now rewrite later_nil.
    + exists (released (auth this) ++ tr), k. split; [reflexivity|].
      now rewrite (in_flight_app _ _ _ (in_flight_released (auth this))).
  - injection Hrun as <- <- <-. split; [discriminate|].
    exists [], 0. now rewrite later_nil.
Qed.

Lemma enumerate_in_flight e w r e' w' :
  enumerate e w = (r, e', w') ->
  exists tr k,
    w' = later w tr k /\ in_flight (held_by e) tr = Some (held_by e').
Proof.
  destruct e as [|this]; cbn [enumerate].
  - intros [= <- <- <-]. exists [], 0. now rewrite later_nil.
  - unfold bind.
    destruct (signature_enumerate this w) as [[r0 this'] w0] eqn:Hrun.
    intros [= <- <- <-].
    now destruct (signature_enumerate_in_flight _ _ Hrun) as [_ H].
Qed.

Lemma advance_in_flight n : forall e w rs e' w',
  advance n e w = (rs, (e', w')) ->
  exists tr k,
    w' = later w tr k /\ in_flight (held_by e) tr = Some (held_by e').
Proof.
  induction n as [|n IH]; intros e w rs e' w'; cbn [advance].
  - intros [= <- <- <-]. exists [], 0. now rewrite later_nil.
  - destruct (enumerate e w) as [[r e1] w1] eqn:Hone.
    destruct (advance n e1 w1) as [rs1 [e2 w2]] eqn:Hrest.
    intros [= <- <- <-].
    destruct (enumerate_in_flight _ _ Hone) as (tr1 & k1 & -> & H1).
    destruct (IH _ _ _ _ _ Hrest) as (tr2 & k2 & -> & H2).
    exists (tr1 ++ tr2), (k2 + k1). rewrite later_later.
    split; [reflexivity|]. now rewrite (in_flight_app _ _ _ H1).
Qed.

(** X4.  Over the whole life of the enumerator of a container, any number
    of calls and then its destruction, every authorization object that is
    cloned is released once, never while another one is held, and nothing
    is held at the end. *)
Theorem nothing_outlives_the_enumerator this n w :
  exists tr k,
    lifetime n (create_signature_enumerator this) w = later w tr k /\
    in_flight None tr = Some None.
Proof.
  unfold lifetime.
  destruct (advance n (create_signature_enumerator this) w)
    as [rs [e' w']] eqn:Hadv.
  destruct (advance_in_flight _ _ _ Hadv) as (tr & k & -> & Htr).
  assert (held_by (create_signature_enumerator this) = None) as Hnone
    by (unfold create_signature_enumerator; now destruct (type this)).
  rewrite Hnone in Htr. cbn [fst snd].
  destruct e' as [|this']; cbn [enumerator_destroy held_by] in *.
  - exists tr, k. now split.
  - unfold signature_destroy. rewrite DESTROY_IF_released. cbn [snd].
    exists (tr ++ released (auth this')), k.
    rewrite later_later. split; [reflexivity|].
    rewrite (in_flight_app _ _ _ Htr). apply in_flight_released.
Qed.

Lemma enumerate_loop_position f : forall sk this w r this' w',
  enumerate_loop f sk this w = (r, this', w') ->
  i this <= i this' /\
  (i this <= List.length sk -> i this' <= List.length sk) /\
  (forall p, r = Some p -> i this < i this').
Proof.
  induction f as [|f IH]; intros sk this w r this' w' Hrun.
  - cbn [enumerate_loop] in Hrun.
    destruct (i this <? sk_CMS_SignerInfo_num sk);
      injection Hrun as <- <- <-; repeat split; auto; discriminate.
  - destruct (nth_error sk (i this)) as [si|] eqn:Hsi.
    + assert (i this < List.length sk) as Hlt
        by (apply nth_error_Some; congruence).
      rewrite (enumerate_loop_round _ _ _ _ Hsi) in Hrun.
      assert (forall a w0,
                enumerate_loop f sk (positioned_after this a) w0
                = (r, this', w') ->
                i this <= i this' /\
                (i this <= List.length sk -> i this' <= List.length sk) /\
                (forall p, r = Some p -> i this < i this')) as Hnext.
      { intros a w0 Hloop. apply IH in Hloop.
        cbn [positioned_after i] in Hloop.
        destruct Hloop as (H1 & H2 & _). repeat split; intros; lia. }
      revert Hrun.
      destruct (is_rsa_encryption (signature_oid si)); cbn [negb];
        [|apply Hnext].
      destruct (resolve si (digest_oid si)); [|apply Hnext].
      cbv zeta. destruct (digest_matches _ _ _); [|apply Hnext].
      intros [= <- <- <-]. cbn [positioned_after i].
      repeat split; intros; lia.
    + apply nth_error_None in Hsi.
      rewrite (enumerate_loop_end _ _ _ _ Hsi) in Hrun.
      injection Hrun as <- <- <-. repeat split; auto; discriminate.
Qed.

(** X5.  The position of the signature enumerator never moves back and never
    passes the number of signers; a call that yields a result moves it
    forward, a call that signals end-of-sequence leaves it at the end; the
    signers and the container the enumerator works on stay the same. *)
Theorem position_only_advances this sk w r this' w' :
  signers this = Some sk ->
  i this <= List.length sk ->
  signature_enumerate this w = (r, this', w') ->
  signers this' = Some sk /\
  full_cms this' = full_cms this /\
  i this <= i this' <= List.length sk /\
  (r <> None -> i this < i this') /\
  (r = None -> i this' = List.length sk).
Proof.
  intros Hsk Hle Hrun.
  destruct (signature_enumerate_kept _ _ Hsk Hrun) as (Hsk' & Hcms & Hr).
  unfold signature_enumerate in Hrun. rewrite Hsk in Hrun.
  apply enumerate_loop_position in Hrun. destruct Hrun as (H1 & H2 & H3).
  specialize (H2 Hle). repeat split; try assumption.
  - destruct r as [p|]; [intros _; now apply (H3 p)|congruence].
  - intros ->. destruct Hr as [_ Hend]. lia.
Qed.

(** X6.  The result a call yields is the object the enumerator holds: the
    next call that looks at a signer releases it, before anything else; when
    no signer is left, the next call leaves it alone, and it is the
    destruction of the enumerator that releases it. *)
Theorem yielded_result_lives_until_next_call this sk w p this' w' :
  signers this = Some sk ->
  signature_enumerate this w = (Some p, this', w') ->
  auth this' = Some p /\
  (i this' < List.length sk ->
   exists tr k,
     snd (signature_enumerate this' w')
     = later w' (auth_destroy (addr p) :: tr) k) /\
  (List.length sk <= i this' ->
   signature_enumerate this' w' = (None, this', w') /\
   signature_destroy this' w' = (tt, later w' [auth_destroy (addr p)] 0)).
Proof.
  intros Hsk Hrun.
  destruct (signature_enumerate_kept _ _ Hsk Hrun) as (Hsk' & _ & _).
  destruct (signature_enumerate_in_flight _ _ Hrun) as [Hp _].
  specialize (Hp p eq_refl). split; [exact Hp|]. split.
  - intros Hlt.
    destruct (signature_enumerate this' w') as [[r2 this2] w2] eqn:Hnext.
    pose proof (signature_enumerate_kept _ _ Hsk' Hnext) as (_ & _ & Hr2).
    unfold signature_enumerate in Hnext. rewrite Hsk' in Hnext.
    pose proof (enumerate_loop_position _ _ _ _ Hnext) as (Hpos & _ & Hp2).
    apply enumerate_loop_in_flight in Hnext.
    destruct Hnext as [_ [(-> & -> & ->)|(tr & k & -> & _)]].
    + destruct Hr2 as [_ Hend]. lia.
    + exists tr, k. cbn [snd]. now rewrite Hp.
  - intros Hend. split.
    + now apply signature_enumerate_end with sk.
    + unfold signature_destroy. rewrite DESTROY_IF_released. now rewrite Hp.
Qed.

End Lifecycle.

(** ** Properties of the attestation state *)

Module ImvFacts.
Import Imv.

Section Facts.
Context {Sur : Surroundings}.

Lemma check_off_first k pre r post :
  (forall x, In x pre -> id x <> k) ->
  id r = k ->
  check_off k (pre ++ r :: post)
  = (Some (file_id r, is_dir r), pre ++ post).
Proof.
  intros Hpre Hr. induction pre as [|x pre IH]; cbn [check_off app].
  - apply Z.eqb_eq in Hr. now rewrite Hr.
  - assert (id x <> k) as Hx by (apply Hpre; now left).
    apply Z.eqb_neq in Hx. rewrite Hx, IH; [reflexivity|].
    intros y Hy. apply Hpre. now right.
Qed.

Lemma check_off_none k l :
  (forall x, In x l -> id x <> k) -> check_off k l = (None, l).
Proof.
  induction l as [|x l IH]; intros H; cbn [check_off].
  - reflexivity.
  - assert (id x <> k) as Hx by (apply H; now left).
    apply Z.eqb_neq in Hx. rewrite Hx, IH; [reflexivity|].
    intros y Hy. apply H. now right.
Qed.

Lemma with_requests_same this :
  with_requests this (request_counter this) (requests this) = this.
Proof. now destruct this. Qed.

(** X7.  [check_off_request] takes the oldest pending request of the
    identifier: it returns its file and its kind and removes it, and every
    other request stays pending, in the same order.  When no pending
    request has the identifier it returns FALSE and the state is as
    before. *)
Theorem check_off_request_oldest this k :
  (forall pre r post,
     requests this = pre ++ r :: post ->
     (forall x, In x pre -> id x <> k) ->
     id r = k ->
     check_off_request this k
     = (Some (file_id r, is_dir r),
        with_requests this (request_counter this) (pre ++ post))) /\
  ((forall x, In x (requests this) -> id x <> k) ->
   check_off_request this k = (None, this)).
Proof.
  split.
  - intros pre r post Hl Hpre Hr. unfold check_off_request.
    now rewrite Hl, (@check_off_first k pre r post Hpre Hr).
  - intros H. unfold check_off_request. rewrite (check_off_none _ H).
    now destruct this.
Qed.

(** X8.  A request that is added can be checked off by the identifier
    [add_request] has returned, which gives back its file and its kind and
    leaves the pending requests as they were before, provided no pending
    request has this identifier already. *)
Theorem add_then_check_off this f d :
  (forall x, In x (requests this) ->
             id x <> u16 (request_counter this + 1)) ->
  fst (add_request this f d) = u16 (request_counter this + 1) /\
  check_off_request (snd (add_request this f d)) (fst (add_request this f d))
  = (Some (f, d),
     with_requests this (u16 (request_counter this + 1)) (requests this)).
Proof.
  intros H. split; [reflexivity|].
  unfold add_request, check_off_request. cbn [fst snd requests].
  rewrite (@check_off_first (u16 (request_counter this + 1)) (requests this)
             {| id := u16 (request_counter this + 1);
                file_id := f; is_dir := d |} [] H eq_refl).
  now rewrite app_nil_r.
Qed.

(** X9.  The counter of requests is a 16 bit counter: when a pending request
    has the identifier that the next request gets, checking this
    identifier off after the addition gives the old request, and the new
    one stays pending. *)
Theorem identifier_reused_gives_old_request this f d pre r post :
  requests this = pre ++ r :: post ->
  (forall x, In x pre -> id x <> u16 (request_counter this + 1)) ->
  id r = u16 (request_counter this + 1) ->
  check_off_request (snd (add_request this f d)) (fst (add_request this f d))
  = (Some (file_id r, is_dir r),
     with_requests this (u16 (request_counter this + 1))
       (pre ++ post ++
        [{| id := u16 (request_counter this + 1);
            file_id := f; is_dir := d |}])).
Proof.
  intros Hl Hpre Hr.
  unfold add_request, check_off_request. cbn [fst snd requests].
  rewrite Hl, <- app_assoc. cbn [app].
  now rewrite (@check_off_first _ pre r _ Hpre Hr).
Qed.

Lemma NoDup_snoc {A} (l : list A) a :
  NoDup l -> ~ In a l -> NoDup (l ++ [a]).
Proof.
  induction l as [|x l IH]; intros Hnd Ha; cbn [app].
  - constructor; [intros []|constructor].
  - inversion Hnd as [|? ? Hx Hl]; subst. constructor.
    + intros Hin. apply in_app_or in Hin.
      destruct Hin as [Hin|[<-|[]]]; [contradiction|].
      apply Ha. now left.
    + apply IH; [exact Hl|]. intros Hin. apply Ha. now right.
Qed.

Lemma check_off_In k l x : In x (snd (check_off k l)) -> In x l.
Proof.
  induction l as [|y l IH]; cbn [check_off].
  - intros [].
  - destruct (id y =? k)%Z.
    + cbn [snd]. now right.
    + destruct (check_off k l) as [found l'']. cbn [snd] in *.
      intros [<-|H]; [now left|right; now apply IH].
Qed.

Lemma check_off_NoDup k l :
  NoDup (map id l) -> NoDup (map id (snd (check_off k l))).
Proof.
  induction l as [|y l IH]; cbn [check_off map]; intros H.
  - constructor.
  - inversion H as [|? ? Hy Hl]; subst.
    destruct (id y =? k)%Z; [exact Hl|].
    pose proof (check_off_In k l) as Hin.
    destruct (check_off k l) as [found l'']. cbn [snd map] in *.
    constructor; [|now apply IH].
    intros Hc. apply Hy. apply in_map_iff in Hc.
    destruct Hc as (x & Hx & Hxin). apply in_map_iff.
    exists x. split; [exact Hx|now apply Hin].
Qed.

Lemma perform_calls_identifiers calls : forall this n,
  identifiers_in_use this n ->
  (Z.of_nat (n + additions calls) <= 65535)%Z ->
  identifiers_in_use (perform_calls calls this) (n + additions calls).
Proof.
  induction calls as [|c calls IH]; intros this n Hinv Hn.
  - cbn [additions perform_calls fold_left]. now rewrite Nat.add_0_r.
  - destruct Hinv as (Hc & Hnd & Hr).
    destruct c as [f d|k]; cbn [additions] in *;
      change (perform_calls (?c :: calls) this)
        with (perform_calls calls (perform_call this c)).
    + replace (n + S (additions calls)) with (S n + additions calls) by lia.
      apply IH; [|lia].
      assert (u16 (request_counter this + 1) = Z.of_nat (S n)) as Hu.
      { unfold u16. rewrite Hc. rewrite Z.mod_small; lia. }
      unfold perform_call, add_request, identifiers_in_use.
      cbn [snd request_counter requests]. rewrite Hu.
      split; [reflexivity|]. split.
      * rewrite map_app. cbn [map id]. apply NoDup_snoc; [exact Hnd|].
        intros Hin. apply in_map_iff in Hin.
        destruct Hin as (x & Hx & Hxin). specialize (Hr x Hxin). lia.
      * intros r Hin. apply in_app_or in Hin.
        destruct Hin as [Hin|[<-|[]]].
        -- specialize (Hr r Hin). lia.
        -- cbn [id]. lia.
    + apply IH; [|exact Hn].
      unfold perform_call, check_off_request, identifiers_in_use.
      pose proof (check_off_NoDup k _ Hnd) as Hnd'.
      pose proof (check_off_In k (requests this)) as Hin'.
      destruct (check_off k (requests this)) as [found l].
      cbn [snd request_counter requests] in *.
      split; [exact Hc|]. split; [exact Hnd'|].
      intros r Hin. apply Hr. now apply Hin'.
Qed.

Lemma u16_succ c j : u16 (u16 (c + 1) + j) = u16 (c + (1 + j)).
Proof.
  unfold u16. rewrite Z.add_mod_idemp_l by lia. f_equal. lia.
Qed.

(** Requests that are added and checked off at once leave the pending
    requests as they are and only move the counter, as long as none of the
    identifiers they get is the one of a pending request. *)
Lemma add_and_check_off_counter n : forall this c,
  request_counter this = c ->
  (forall j x, (1 <= j <= Z.of_nat n)%Z -> In x (requests this) ->
               id x <> u16 (c + j)) ->
  (0 < Z.of_nat n)%Z ->
  perform_calls (add_and_check_off n c) this
  = with_requests this (u16 (c + Z.of_nat n)) (requests this).
Proof.
  induction n as [|n IH]; intros this c Hc Hfree Hpos; [discriminate|].
  cbn [add_and_check_off].
  change (perform_calls (?a :: ?b :: ?l) this)
    with (perform_calls l (perform_call (perform_call this a) b)).
  cbn [perform_call].
  assert (forall x, In x (requests this) ->
                    id x <> u16 (request_counter this + 1)) as Hone.
  { intros x Hx. rewrite Hc. apply Hfree; [lia|exact Hx]. }
  destruct (add_then_check_off this 0 false Hone) as [Hid Hoff].
  rewrite <- Hc.
  change (fst (add_request this 0 false))
    with (u16 (request_counter this + 1)) in Hoff.
  rewrite Hoff. cbn [snd].
  destruct n as [|n]; [reflexivity|].
  rewrite (IH (with_requests this (u16 (request_counter this + 1))
                 (requests this)) (u16 (request_counter this + 1)));
    [|reflexivity| |lia].
  - unfold with_requests. cbn [connection_id state handshake_state rec eval
                                request_counter requests pts].
    rewrite u16_succ. do 2 f_equal. lia.
  - cbn [with_requests requests]. intros j x Hj Hx.
    rewrite u16_succ, Hc. apply Hfree; [lia|exact Hx].
Qed.

(** X10.  From its creation and as long as fewer than 65536 requests have
    been added, whatever requests are checked off in between, the counter
    is the number of requests added, the identifiers of the pending
    requests are between 1 and the counter, and no two pending requests
    have the same identifier. *)
Theorem identifiers_unique_before_wrap c info calls :
  (Z.of_nat (additions calls) <= 65535)%Z ->
  identifiers_in_use
    (perform_calls calls (imv_attestation_state_create c info))
    (additions calls).
Proof.
  intros H.
  apply (perform_calls_identifiers calls
           (this := imv_attestation_state_create c info) (n := 0)).
  - unfold identifiers_in_use, imv_attestation_state_create.
    cbn [request_counter requests map]. split; [reflexivity|].
    split; [constructor|intros r []].
  - exact H.
Qed.

(** *** The reason string *)

Lemma find_reason_In c table e :
  find_reason c table = Some e -> In e table.
Proof.
  induction table as [|x table IH]; cbn [find_reason]; [discriminate|].
  destruct (chunk_equals _ _).
  - intros [= <-]. now left.
  - intros H. right. now apply IH.
Qed.

Lemma get_reason_string_sound fuel : forall l r,
  get_reason_string fuel l = Some r ->
  exists e, In e reasons /\ r = reason_of e.
Proof.
  induction fuel as [|fuel IH]; intros l r; cbn [get_reason_string];
    [discriminate|].
  destruct (eat_whitespace l) as [more l1].
  destruct more.
  - destruct (extract_token x2c l1) as [[extracted token] l2].
    destruct (find_reason _ reasons) as [e|] eqn:He.
    + intros [= <-]. exists e. split; [|reflexivity].
      now apply find_reason_In in He.
    + apply IH.
  - unfold reasons. intros [= <-]. eexists. split; [left|]; reflexivity.
Qed.

Lemma eat_trailing_blanks n r :
  eat_trailing (repeat x20 n ++ r) = eat_trailing r.
Proof. induction n as [|n IH]; [reflexivity|exact IH]. Qed.

Lemma rev_repeat {A} (a : A) n : rev (repeat a n) = repeat a n.
Proof.
  induction n as [|n IH]; [reflexivity|].
  cbn [repeat rev]. rewrite IH. clear IH.
  induction n as [|n IH]; [reflexivity|].
  cbn [repeat app]. now rewrite IH.
Qed.

Lemma trim_trailing_blanks c n :
  trim_trailing (c ++ repeat x20 n) = trim_trailing c.
Proof.
  unfold trim_trailing. now rewrite rev_app_distr, rev_repeat,
    eat_trailing_blanks.
Qed.

Lemma find_reason_language e :
  In e reasons ->
  find_reason (trim_trailing (chunk_of_string (lang e))) reasons = Some e.
Proof.
  intros [<-|[<-|[<-|[]]]]; reflexivity.
Qed.

(** X11.  Whatever [get_reason_string] answers is the string of an entry of
    the table, with the language of that entry.  When the lexer finds
    nothing in the preferred languages the answer is the first entry, the
    English one; when the first preferred language, with any number of
    blanks behind it, is a language of the table, the answer is its
    entry. *)
Theorem reason_string_of_first_language fuel l :
  (forall r, get_reason_string fuel l = Some r ->
             exists e, In e reasons /\ r = reason_of e) /\
  (fst (eat_whitespace l) = false ->
   exists e, hd_error reasons = Some e /\ lang e = "en"%string /\
             get_reason_string (S fuel) l = Some (reason_of e)) /\
  (forall e n,
     fst (eat_whitespace l) = true ->
     In e reasons ->
     first_entry l = chunk_of_string (lang e) ++ repeat x20 n ->
     get_reason_string (S fuel) l = Some (reason_of e)).
Proof.
  split; [apply get_reason_string_sound|]. split.
  - intros Hno. eexists. split; [reflexivity|]. split; [reflexivity|].
    cbn [get_reason_string]. destruct (eat_whitespace l) as [more l1].
    cbn [fst] in Hno. now subst more.
  - intros e n Hmore He Hfirst. cbn [get_reason_string].
    unfold first_entry in Hfirst.
    destruct (eat_whitespace l) as [more l1]. cbn [fst snd] in *.
    subst more.
    destruct (extract_token x2c l1) as [[extracted token] l2].
    rewrite Hfirst, trim_trailing_blanks, (find_reason_language He).
    reflexivity.
Qed.

(** X12.  When the last preferred language is in no entry of the table, the
    loop of [get_reason_string] starts every round with the same input:
    with a lexer that finds no comma in this input and leaves it as it is,
    the function does not return, whatever the number of rounds. *)
Theorem unknown_last_language_never_answered l p token :
  eat_whitespace l = (true, p) ->
  eat_whitespace p = (true, p) ->
  extract_token x2c p = (false, token, p) ->
  find_reason (trim_trailing p) reasons = None ->
  forall fuel, get_reason_string fuel l = None.
Proof.
  intros Hl Hp Htoken Hnone.
  assert (forall fuel, get_reason_string fuel p = None) as Hstuck.
  { induction fuel as [|fuel IH]; cbn [get_reason_string]; [reflexivity|].
    now rewrite Hp, Htoken, Hnone. }
  intros [|fuel]; cbn [get_reason_string]; [reflexivity|].
  now rewrite Hl, Htoken, Hnone.
Qed.

End Facts.
End ImvFacts.

(** ** Properties of the policy store *)

Module PolicyFacts.
Import Policy.

Section Facts.
Context {Sur : Surroundings}.

Section Request.
Variables (my_id other_id : identification_t).
Variables (my_ts other_ts : list traffic_selector_t).
Variables (my_host other_host : host_t).

Local Notation eligible :=
  (Policy.eligible my_id my_ts other_ts my_host other_host).
Local Notation prio := (Policy.prio_of other_id).
Local Notation step :=
  (Policy.round my_id other_id my_ts other_ts my_host other_host).

Lemma get_policy_loop_fold l : forall found best,
  fst (get_policy_loop my_id other_id my_ts other_ts my_host other_host
         l found best)
  = fold_left step l (found, best).
Proof.
  induction l as [|c l IH]; intros found best;
    cbn [get_policy_loop fold_left]; [reflexivity|].
  unfold round at 2, Policy.eligible, prio_of. cbn [snd].
  destruct (matches (get_my_id c) my_id) as [w|]; [|apply IH].
  set (p := match matches other_id (get_other_id c) with
            | Some wildcards => (PRIO_ID_MATCH - wildcards)%Z
            | None => PRIO_UNDEFINED
            end).
  pose proof (IH (Some c) p) as IH1. pose proof (IH found best) as IH2.
  destruct (contains_traffic_selectors c true my_ts my_host);
    destruct (contains_traffic_selectors c false other_ts other_host);
    cbn [negb orb andb];
    try (destruct (get_policy_loop _ _ _ _ _ _ l found best) as [[f b] ev];
         exact IH2).
  destruct (p >? best)%Z.
  - destruct (get_policy_loop _ _ _ _ _ _ l (Some c) p) as [[f b] ev].
    exact IH1.
  - destruct (get_policy_loop _ _ _ _ _ _ l found best) as [[f b] ev].
    exact IH2.
Qed.

(** The policy the fold ends with: the one it started with, when no
    candidate is eligible with a higher priority; otherwise the first
    eligible candidate of the highest priority. *)
Lemma fold_step_best l : forall found best,
  (fold_left step l (found, best) = (found, best) /\
   forall c, In c l -> eligible c = true -> (prio c <= best)%Z) \/
  exists pre p post,
    l = pre ++ p :: post /\
    fold_left step l (found, best) = (Some p, prio p) /\
    eligible p = true /\ (best < prio p)%Z /\
    (forall c, In c pre -> eligible c = true -> (prio c < prio p)%Z) /\
    (forall c, In c post -> eligible c = true -> (prio c <= prio p)%Z).
Proof.
  induction l as [|c l IH]; intros found best; cbn [fold_left].
  - left. split; [reflexivity|]. intros c [].
  - destruct (eligible c && (prio c >? best)%Z) eqn:Hc.
    + assert (step (found, best) c = (Some c, prio c)) as ->
        by (unfold round; cbn [snd]; now rewrite Hc).
      apply andb_prop in Hc. destruct Hc as [Hel Hgt].
      apply Z.gtb_lt in Hgt.
      destruct (IH (Some c) (prio c))
        as [[Hsame Hall]|(pre & p & post & -> & Hres & Hp & Hlt & Hpre & Hpost)].
      * right. exists [], c, l. cbn [app].
        split; [reflexivity|]. split; [exact Hsame|].
        split; [exact Hel|]. split; [exact Hgt|].
        split; [intros x []|exact Hall].
      * right. exists (c :: pre), p, post. cbn [app].
        split; [reflexivity|]. split; [exact Hres|].
        split; [exact Hp|]. split; [lia|]. split; [|exact Hpost].
        intros x [<-|Hx] Hx'; [exact Hlt|now apply Hpre].
    + assert (step (found, best) c = (found, best)) as ->
        by (unfold round; cbn [snd]; now rewrite Hc).
      assert (eligible c = true -> (prio c <= best)%Z) as Hc'.
      { intros Hel. rewrite Hel in Hc. cbn [andb] in Hc.
        destruct (Z.gtb_spec (prio c) best); [discriminate|lia]. }
      destruct (IH found best)
        as [[Hsame Hall]|(pre & p & post & -> & Hres & Hp & Hlt & Hpre & Hpost)].
      * left. split; [exact Hsame|].
        intros x [<-|Hx] Hx'; [now apply Hc'|now apply Hall].
      * right. exists (c :: pre), p, post. cbn [app].
        split; [reflexivity|]. split; [exact Hres|].
        split; [exact Hp|]. split; [exact Hlt|]. split; [|exact Hpost].
        intros x [<-|Hx] Hx'; [specialize (Hc' Hx'); lia|now apply Hpre].
Qed.

Lemma contains_traffic_selectors_true c mine ts host :
  contains_traffic_selectors c mine ts host = true <->
  (if mine then select_my_traffic_selectors c ts host
   else select_other_traffic_selectors c ts host) <> [].
Proof.
  unfold contains_traffic_selectors.
  destruct (if mine then _ else _); cbn; split; congruence.
Qed.

Hypothesis wildcards_bounded : forall a b w,
  matches a b = Some w -> (0 <= w <= MAX_WILDCARDS)%Z.

Lemma eligible_prio c :
  (eligible c = true /\ (PRIO_UNDEFINED < prio c)%Z) <->
  acceptable my_id other_id my_ts other_ts my_host other_host c.
Proof.
  unfold Policy.eligible, prio_of, acceptable, PRIO_UNDEFINED,
    PRIO_ID_MATCH, PRIO_ID_ANY.
  destruct (matches (get_my_id c) my_id) as [w1|].
  2:{ split; [intros [? _]; discriminate|intros [H _]; now contradiction H]. }
  rewrite andb_true_iff, !contains_traffic_selectors_true.
  destruct (matches other_id (get_other_id c)) as [w|] eqn:Hw.
  - apply wildcards_bounded in Hw. split.
    + intros [[H1 H2] _]. repeat split; try assumption; discriminate.
    + intros (_ & _ & H1 & H2). repeat split; try assumption. lia.
  - split.
    + intros [_ H]. lia.
    + intros (_ & H & _). now contradiction H.
Qed.

Lemma prio_wildcards c d :
  acceptable my_id other_id my_ts other_ts my_host other_host c ->
  acceptable my_id other_id my_ts other_ts my_host other_host d ->
  (prio c - prio d = wildcards_of other_id d - wildcards_of other_id c)%Z.
Proof.
  intros (_ & Hc & _) (_ & Hd & _). unfold prio_of, wildcards_of.
  destruct (matches other_id (get_other_id c)); [|now contradiction Hc].
  destruct (matches other_id (get_other_id d)); [|now contradiction Hd].
  lia.
Qed.

Lemma get_policy_found this :
  fst (get_policy this my_id other_id my_ts other_ts my_host other_host)
  = fst (fold_left step (policies this) (None, PRIO_UNDEFINED)).
Proof.
  unfold get_policy.
  pose proof (get_policy_loop_fold (policies this) None PRIO_UNDEFINED) as H.
  destruct (get_policy_loop _ _ _ _ _ _ _ _ _) as [[f b] ev].
  cbn [fst] in *. now rewrite <- H.
Qed.

(** X13.  When [matches] reports between 0 and MAX_WILDCARDS wildcards,
    [get_policy] returns the closest match: a policy that is acceptable
    for the request (both identities match and both selections of traffic
    selectors are not empty), with fewer wildcards than every acceptable
    policy added before it and no more than every acceptable policy added
    after it; it returns NULL exactly when no policy is acceptable. *)
Theorem get_policy_closest_match this :
  match fst (get_policy this my_id other_id my_ts other_ts
               my_host other_host) with
  | Some p =>
      exists pre post,
        policies this = pre ++ p :: post /\
        acceptable my_id other_id my_ts other_ts my_host other_host p /\
        (forall c, In c pre ->
           acceptable my_id other_id my_ts other_ts my_host other_host c ->
           (wildcards_of other_id p < wildcards_of other_id c)%Z) /\
        (forall c, In c post ->
           acceptable my_id other_id my_ts other_ts my_host other_host c ->
           (wildcards_of other_id p <= wildcards_of other_id c)%Z)
  | None =>
      forall c, In c (policies this) ->
        ~ acceptable my_id other_id my_ts other_ts my_host other_host c
  end.
Proof.
  rewrite get_policy_found.
  destruct (fold_step_best (policies this) None PRIO_UNDEFINED)
    as [[-> Hall]|(pre & p & post & Hl & -> & Hp & Hlt & Hpre & Hpost)];
    cbn [fst].
  - intros c Hc Hacc. apply eligible_prio in Hacc.
    destruct Hacc as [Hel Hpos]. specialize (Hall c Hc Hel). lia.
  - assert (acceptable my_id other_id my_ts other_ts my_host other_host p)
      as Hacc by (apply eligible_prio; now split).
    exists pre, post. split; [exact Hl|]. split; [exact Hacc|]. split.
    + intros c Hc Hc'. pose proof (prio_wildcards Hc' Hacc).
      apply eligible_prio in Hc'. destruct Hc' as [Hel _].
      specialize (Hpre c Hc Hel). lia.
    + intros c Hc Hc'. pose proof (prio_wildcards Hc' Hacc).
      apply eligible_prio in Hc'. destruct Hc' as [Hel _].
      specialize (Hpost c Hc Hel). lia.
Qed.

Lemma fold_round_found this :
  (fold_left step (policies this) (None, PRIO_UNDEFINED)
   = (None, PRIO_UNDEFINED) /\
   fst (get_policy this my_id other_id my_ts other_ts my_host other_host)
   = None) \/
  exists q,
    fold_left step (policies this) (None, PRIO_UNDEFINED) = (Some q, prio q) /\
    fst (get_policy this my_id other_id my_ts other_ts my_host other_host)
    = Some q /\
    acceptable my_id other_id my_ts other_ts my_host other_host q.
Proof.
  rewrite get_policy_found.
  destruct (fold_step_best (policies this) None PRIO_UNDEFINED)
    as [[H _]|(pre & q & post & _ & H & Hq & Hlt & _)]; rewrite H.
  - now left.
  - right. exists q. split; [reflexivity|]. split; [reflexivity|].
    apply eligible_prio. now split.
Qed.

(** X14.  When [matches] reports between 0 and MAX_WILDCARDS wildcards,
    adding a policy changes what [get_policy] returns for a request
    only in favour of the new policy: it is returned when it is acceptable
    and has fewer wildcards than the policy returned before, or none was;
    in every other case the answer is the one before. *)
Theorem get_policy_after_add_policy this p :
  let before :=
    fst (get_policy this my_id other_id my_ts other_ts my_host other_host) in
  let after :=
    fst (get_policy (fst (add_policy this p))
           my_id other_id my_ts other_ts my_host other_host) in
  (acceptable my_id other_id my_ts other_ts my_host other_host p ->
   match before with
   | Some q => (wildcards_of other_id p < wildcards_of other_id q)%Z
   | None => True
   end ->
   after = Some p) /\
  (~ acceptable my_id other_id my_ts other_ts my_host other_host p \/
   match before with
   | Some q => (wildcards_of other_id q <= wildcards_of other_id p)%Z
   | None => False
   end ->
   after = before).
Proof.
  cbv zeta. rewrite (get_policy_found (fst (add_policy this p))).
  cbn [add_policy fst policies]. rewrite fold_left_app. cbn [fold_left].
  destruct (fold_round_found this) as [[-> ->]|(q & -> & -> & Hq)];
    unfold round; cbn [snd].
  - split.
    + intros Hp _. apply eligible_prio in Hp. destruct Hp as [-> Hpos].
      apply Z.gtb_lt in Hpos. now rewrite Hpos.
    + intros [Hp|[]].
      destruct (Policy.eligible _ _ _ _ _ p) eqn:Hel; [|reflexivity].
      destruct (Z.gtb_spec (prio p) PRIO_UNDEFINED); [|reflexivity].
      contradiction Hp. apply eligible_prio. now split.
  - split.
    + intros Hp Hw. pose proof (prio_wildcards Hp Hq).
      apply eligible_prio in Hp. destruct Hp as [-> _].
      assert (prio q < prio p)%Z as Hlt by lia.
      apply Z.gtb_lt in Hlt. now rewrite Hlt.
    + intros Hcase.
      destruct (Policy.eligible _ _ _ _ _ p) eqn:Hel; [|reflexivity].
      destruct (Z.gtb_spec (prio p) (prio q)) as [Hgt|]; [|reflexivity].
      pose proof Hq as Hq'.
      apply eligible_prio in Hq. destruct Hq as [_ Hqpos].
      assert (acceptable my_id other_id my_ts other_ts my_host other_host p)
        as Hp by (apply eligible_prio; split; [exact Hel|lia]).
      destruct Hcase as [Hn|Hw]; [contradiction|].
      pose proof (prio_wildcards Hp Hq'). lia.
Qed.

End Request.
Lemma get_policy_loop_logs my_id other_id my_ts other_ts my_host other_host
    l : forall found best,
  forallb is_log
    (snd (get_policy_loop my_id other_id my_ts other_ts my_host other_host
            l found best)) = true.
Proof.
  induction l as [|c l IH]; intros found best; cbn [get_policy_loop];
    [reflexivity|].
  destruct (matches (get_my_id c) my_id); [|apply IH].
  pose proof (IH found best) as IH2.
  destruct (_ || _).
  - destruct (get_policy_loop _ _ _ _ _ _ l found best) as [[f b] ev].
    exact IH2.
  - destruct (_ >? best)%Z.
    + specialize (IH (Some c)
                    match matches other_id (get_other_id c) with
                    | Some wildcards => (PRIO_ID_MATCH - wildcards)%Z
                    | None => PRIO_UNDEFINED
                    end).
      destruct (get_policy_loop _ _ _ _ _ _ l (Some c) _) as [[f b] ev].
      exact IH.
    + destruct (get_policy_loop _ _ _ _ _ _ l found best) as [[f b] ev].
      exact IH2.
Qed.

Lemma logs_transparent ev : forall rest locked,
  forallb is_log ev = true ->
  mutex_after locked (ev ++ rest) = mutex_after locked rest /\
  referenced (ev ++ rest) = referenced rest /\
  destroyed (ev ++ rest) = destroyed rest.
Proof.
  induction ev as [|e ev IH]; intros rest locked H; cbn [app].
  - now repeat split.
  - cbn [forallb] in H. apply andb_prop in H. destruct H as [He H].
    destruct e; try discriminate.
    cbn [mutex_after referenced destroyed]. now apply IH.
Qed.

(** X15.  [get_policy] takes one reference, on the policy it returns, and none
    when it returns NULL; it destroys no policy, and the mutex it takes is
    released when it returns, whether a policy is found or not. *)
Theorem get_policy_takes_one_reference this my_id other_id my_ts other_ts
    my_host other_host :
  let r := get_policy this my_id other_id my_ts other_ts my_host other_host in
  referenced (snd r)
  = match fst r with Some p => [p] | None => [] end /\
  destroyed (snd r) = [] /\
  mutex_after false (snd r) = Some false.
Proof.
  cbv zeta. unfold get_policy.
  pose proof (get_policy_loop_logs my_id other_id my_ts other_ts my_host
                other_host (policies this) None PRIO_UNDEFINED) as Hlogs.
  destruct (get_policy_loop _ _ _ _ _ _ _ _ _) as [[found best] ev].
  cbn [fst snd app mutex_after referenced destroyed] in *.
  pose proof (fun rest locked => logs_transparent ev rest locked Hlogs) as H.
  destruct found as [p|]; cbn [app];
    destruct (H ([DBG 1 "found matching policy '%s': '%D'...'%D' (prio=%d)";
                  get_ref p] ++ [mutex_unlock]) true) as (H1 & H2 & H3)
    || destruct (H [mutex_unlock] true) as (H1 & H2 & H3);
    cbn [app] in *; rewrite H1, H2, H3; now repeat split.
Qed.

Lemma by_name_loop_app name l1 : forall l2 found,
  by_name_loop name (l1 ++ l2) found
  = by_name_loop name l2 (by_name_loop name l1 found).
Proof.
  induction l1 as [|c l1 IH]; intros l2 found; cbn [app by_name_loop].
  - reflexivity.
  - destruct (String.eqb _ _); apply IH.
Qed.

Lemma by_name_loop_none name l : forall found,
  (forall c, In c l -> has_name name c = false) ->
  by_name_loop name l found = found.
Proof.
  induction l as [|c l IH]; intros found H; cbn [by_name_loop].
  - reflexivity.
  - assert (has_name name c = false) as Hc by (apply H; now left).
    unfold has_name in Hc. rewrite Hc. apply IH.
    intros x Hx. apply H. now right.
Qed.

(** X16.  [get_policy_by_name] returns the policy of that name that was added
    last, with a reference taken on it after the mutex is released.  When
    no policy has the name, it takes the reference through the NULL
    pointer. *)
Theorem get_policy_by_name_last this name :
  (forall pre p post,
     policies this = pre ++ p :: post ->
     has_name name p = true ->
     (forall c, In c post -> has_name name c = false) ->
     get_policy_by_name this name
     = (returns p,
        [DBG 2 "looking for policy '%s'"; mutex_lock; mutex_unlock;
         get_ref p])) /\
  ((forall c, In c (policies this) -> has_name name c = false) ->
   get_policy_by_name this name
   = (null_dereference,
      [DBG 2 "looking for policy '%s'"; mutex_lock; mutex_unlock])).
Proof.
  unfold get_policy_by_name. split.
  - intros pre p post -> Hp Hpost.
    rewrite by_name_loop_app. cbn [by_name_loop].
    unfold has_name in Hp. rewrite Hp.
    now rewrite (@by_name_loop_none name post _ Hpost).
  - intros H. now rewrite (@by_name_loop_none name _ None H).
Qed.

(** X17.  A policy that has just been added is the one [get_policy_by_name]
    returns for its name, whatever policies of the same name the store
    holds already. *)
Theorem add_policy_then_by_name this p :
  fst (get_policy_by_name (fst (add_policy this p)) (get_name p))
  = returns p.
Proof.
  unfold get_policy_by_name, add_policy. cbn [fst policies].
  rewrite by_name_loop_app. cbn [by_name_loop].
  now rewrite String.eqb_refl.
Qed.

Lemma delete_loop_filter name l :
  delete_loop name l
  = (filter (fun c => negb (has_name name c)) l,
     map policy_destroy (filter (has_name name) l),
     existsb (has_name name) l).
Proof.
  induction l as [|c l IH]; cbn [delete_loop filter map existsb].
  - reflexivity.
  - rewrite IH.
    change (String.eqb (get_name c) name) with (has_name name c).
    destruct (has_name name c); reflexivity.
Qed.

(** X18.  [delete_policy] removes every policy of the name and destroys each
    of them once, in the order of the list; the other policies stay, in
    their order.  It returns SUCCESS when there was a policy of the name
    and NOT_FOUND otherwise, and then the store is as before. *)
Theorem delete_policy_removes_all this name :
  delete_policy this name
  = (if existsb (has_name name) (policies this) then SUCCESS else NOT_FOUND,
     {| policies := filter (fun c => negb (has_name name c)) (policies this) |},
     [mutex_lock]
     ++ map policy_destroy (filter (has_name name) (policies this))
     ++ [mutex_unlock]) /\
  (fst (fst (delete_policy this name)) = NOT_FOUND ->
   snd (fst (delete_policy this name)) = this).
Proof.
  unfold delete_policy. rewrite delete_loop_filter. split; [reflexivity|].
  cbn [fst snd]. destruct (existsb _ _) eqn:He; [discriminate|]. intros _.
  destruct this as [l]. cbn [policies] in *. f_equal.
  induction l as [|c l IH]; cbn [filter existsb] in *; [reflexivity|].
  apply orb_false_elim in He. destruct He as [-> He]. cbn [negb].
  now rewrite IH.
Qed.

Lemma filter_has_name_none name l :
  forall c, In c (filter (fun c => negb (has_name name c)) l) ->
            has_name name c = false.
Proof.
  intros c Hc. apply filter_In in Hc. destruct Hc as [_ Hc].
  now apply negb_true_iff in Hc.
Qed.

Lemma by_name_loop_filter name name' l : forall found,
  name' <> name ->
  by_name_loop name' (filter (fun c => negb (has_name name c)) l) found
  = by_name_loop name' l found.
Proof.
  induction l as [|c l IH]; intros found Hne; cbn [filter by_name_loop].
  - reflexivity.
  - unfold has_name at 1.
    destruct (String.eqb (get_name c) name) eqn:Hc; cbn [negb].
    + apply String.eqb_eq in Hc.
      destruct (String.eqb (get_name c) name') eqn:Hc'.
      * apply String.eqb_eq in Hc'. congruence.
      * now apply IH.
    + cbn [by_name_loop]. destruct (String.eqb (get_name c) name');
        now apply IH.
Qed.

(** X19.  After [delete_policy] no policy of the name is left: deleting the
    name again returns NOT_FOUND and changes nothing, looking the name up
    dereferences NULL, and looking up any other name gives what it gave
    before. *)
Theorem delete_policy_then this name :
  let this' := snd (fst (delete_policy this name)) in
  delete_policy this' name = (NOT_FOUND, this', [mutex_lock; mutex_unlock]) /\
  fst (get_policy_by_name this' name) = null_dereference /\
  (forall name', name' <> name ->
     fst (get_policy_by_name this' name')
     = fst (get_policy_by_name this name')).
Proof.
  cbv zeta. unfold delete_policy at 2 3 4 5. rewrite delete_loop_filter.
  cbn [fst snd].
  pose proof (filter_has_name_none name (policies this)) as Hnone.
  split; [|split].
  - unfold delete_policy. rewrite delete_loop_filter. cbn [policies].
    assert (existsb (has_name name)
              (filter (fun c => negb (has_name name c)) (policies this))
            = false) as ->.
    { destruct (existsb _ _) eqn:He; [|reflexivity].
      apply existsb_exists in He. destruct He as (c & Hc & Hn).
      rewrite (Hnone c Hc) in Hn. discriminate. }
    assert (filter (has_name name)
              (filter (fun c => negb (has_name name c)) (policies this))
            = []) as ->.
    { induction (policies this) as [|c l IH]; cbn [filter]; [reflexivity|].
      destruct (has_name name c) eqn:Hc; cbn [negb filter].
      - apply IH. intros x Hx. apply filter_has_name_none with l. exact Hx.
      - rewrite Hc. apply IH. intros x Hx.
        apply filter_has_name_none with l. exact Hx. }
    assert (filter (fun c => negb (has_name name c))
              (filter (fun c => negb (has_name name c)) (policies this))
            = filter (fun c => negb (has_name name c)) (policies this)) as ->.
    { induction (policies this) as [|c l IH]; cbn [filter]; [reflexivity|].
      destruct (negb (has_name name c)) eqn:Hc; cbn [filter].
      - rewrite Hc. f_equal. apply IH. intros x Hx.
        apply filter_has_name_none with l. exact Hx.
      - apply IH. intros x Hx. apply filter_has_name_none with l. exact Hx. }
    reflexivity.
  - unfold get_policy_by_name. cbn [policies].
    now rewrite (@by_name_loop_none name _ None Hnone).
  - intros name' Hne. unfold get_policy_by_name. cbn [policies].
    rewrite (@by_name_loop_filter name name' (policies this) None Hne).
    now destruct (by_name_loop name' (policies this) None).
Qed.


End Facts.
End PolicyFacts.

(** ** The further properties on concrete data *)

Section LifecycleExamples.
Import Toy.
#[local] Existing Instance foreign.
#[local] Existing Instance collaborators.

Lemma binder_hashes_what_get_data_returns_witness :
  get_data (signed_data None) w0
  = (Some {| ptr := 0; bytes := content |}, later w0 [chunk_malloc 0] 1) /\
  (fst (verify_digest (cms (signed_data None)) good_signer (OID_other 1) w0)
   = true <->
   exists digest hasher,
     declared_digest good_signer = Some digest /\
     create_hasher (hasher_algorithm_from_oid (OID_other 1)) = Some hasher /\
     allocate_hash hasher content = Some digest).
Proof.
  split; [reflexivity|].
  exact (binder_hashes_what_get_data_returns (signed_data None) good_signer
           (OID_other 1) w0 w0 eq_refl).
Defined.

Lemma position_only_advances_witness :
  signers (at_first mixed_signers) = Some mixed_signers /\
  fst (fst (signature_enumerate (at_first mixed_signers) w0))
  = Some {| addr := 0; cfg := 40 |} /\
  i (snd (fst (signature_enumerate (at_first mixed_signers) w0))) = 2 /\
  (0 <= i (snd (fst (signature_enumerate (at_first mixed_signers) w0)))
   <= List.length mixed_signers).
Proof.
  split; [reflexivity|]. split; [reflexivity|]. split; [reflexivity|].
  exact (proj1 (proj2 (proj2
           (position_only_advances (at_first mixed_signers) w0
              (r := fst (fst (signature_enumerate (at_first mixed_signers) w0)))
              (this' := snd (fst (signature_enumerate
                                    (at_first mixed_signers) w0)))
              (w' := snd (signature_enumerate (at_first mixed_signers) w0))
              eq_refl (le_0_n _) eq_refl)))).
Defined.

Lemma yielded_result_lives_until_next_call_witness :
  signature_enumerate (at_first mixed_signers) w0
  = (Some {| addr := 0; cfg := 40 |},
     snd (fst (signature_enumerate (at_first mixed_signers) w0)),
     snd (signature_enumerate (at_first mixed_signers) w0)) /\
  exists tr k,
    snd (signature_enumerate
           (snd (fst (signature_enumerate (at_first mixed_signers) w0)))
           (snd (signature_enumerate (at_first mixed_signers) w0)))
    = later (snd (signature_enumerate (at_first mixed_signers) w0))
        (auth_destroy 0 :: tr) k.
Proof.
  split; [reflexivity|].
  refine (proj1 (proj2
            (yielded_result_lives_until_next_call
               (at_first mixed_signers) w0
               (sk := mixed_signers) (p := {| addr := 0; cfg := 40 |})
               (this' := snd (fst (signature_enumerate
                                     (at_first mixed_signers) w0)))
               (w' := snd (signature_enumerate (at_first mixed_signers) w0))
               eq_refl eq_refl)) _).
  apply le_n_S, le_n_S, le_n_S, le_0_n.
Defined.

End LifecycleExamples.

Section ImvExamples.
Import Imv.
#[local] Existing Instance Imv.toy.

Lemma check_off_request_oldest_witness :
  check_off_request three_pending 2
  = (Some (20%Z, true),
     with_requests three_pending 3
       [{| id := 1; file_id := 10; is_dir := false |};
        {| id := 3; file_id := 30; is_dir := false |}]) /\
  check_off_request three_pending 9 = (None, three_pending).
Proof.
  destruct (ImvFacts.check_off_request_oldest three_pending 2) as [H _].
  destruct (ImvFacts.check_off_request_oldest three_pending 9) as [_ H'].
  split.
  - apply (H [{| id := 1; file_id := 10; is_dir := false |}]
             {| id := 2; file_id := 20; is_dir := true |}
             [{| id := 3; file_id := 30; is_dir := false |}] eq_refl);
      [|reflexivity].
    intros x [<-|[]]. discriminate.
  - apply H'. intros x [<-|[<-|[<-|[]]]]; discriminate.
Defined.

Lemma add_then_check_off_witness :
  fst (add_request three_pending 40 true) = 4%Z /\
  check_off_request (snd (add_request three_pending 40 true)) 4
  = (Some (40%Z, true), with_requests three_pending 4 (requests three_pending)).
Proof.
  refine (ImvFacts.add_then_check_off three_pending 40 true _).
  intros x [<-|[<-|[<-|[]]]]; discriminate.
Defined.

Lemma identifier_reused_gives_old_request_witness :
  requests gone_round = [{| id := 1; file_id := 5; is_dir := true |}] /\
  id {| id := 1; file_id := 5; is_dir := true |}
  = u16 (request_counter gone_round + 1) /\
  check_off_request (snd (add_request gone_round 9 false))
    (fst (add_request gone_round 9 false))
  = (Some (5%Z, true),
     with_requests gone_round (u16 (request_counter gone_round + 1))
       [{| id := u16 (request_counter gone_round + 1);
           file_id := 9; is_dir := false |}]).
Proof.
  assert (gone_round
          = with_requests one_pending 0
              [{| id := 1; file_id := 5; is_dir := true |}]) as Hround.
  { unfold gone_round.
    rewrite (@ImvFacts.add_and_check_off_counter toy (Z.to_nat 65535)
               one_pending 1 eq_refl);
      rewrite ?Z2Nat.id by lia; [reflexivity| |reflexivity].
    intros j x Hj [<-|[]]. cbn [id]. unfold u16.
    destruct (Z.eq_dec j 65535) as [->|Hne]; [discriminate|].
    rewrite (Z.mod_small (1 + j)) by lia. change (1 <> 1 + j)%Z. lia. }
  assert (requests gone_round
          = [{| id := 1; file_id := 5; is_dir := true |}]) as Hl
    by (rewrite Hround; reflexivity).
  assert (id {| id := 1; file_id := 5; is_dir := true |}
          = u16 (request_counter gone_round + 1)) as Hid
    by (rewrite Hround; reflexivity).
  assert (forall x : request_t, In x [] ->
            id x <> u16 (request_counter gone_round + 1)) as Hpre
    by (intros x H; exact (False_ind _ H)).
  split; [exact Hl|]. split; [exact Hid|].
  exact (@ImvFacts.identifier_reused_gives_old_request toy gone_round
           9 false [] {| id := 1; file_id := 5; is_dir := true |} []
           Hl Hpre Hid).
Defined.

Lemma identifiers_unique_before_wrap_witness :
  identifiers_in_use
    (perform_calls
       [call_add_request 10 false; call_check_off_request 1;
        call_add_request 20 true; call_add_request 30 false;
        call_check_off_request 7]
       (imv_attestation_state_create 1 (Some "linux"%string)))
    3.
Proof.
  refine (ImvFacts.identifiers_unique_before_wrap 1 (Some "linux"%string)
            [call_add_request 10 false; call_check_off_request 1;
             call_add_request 20 true; call_add_request 30 false;
             call_check_off_request 7] _).
  cbn. lia.
Defined.

Lemma reason_string_of_first_language_witness :
  get_reason_string 1 (bytes_of "de  , en")
  = Some (reason_of {| lang := "de";
                       string_ :=
         "IMC Attestation Messung/en von angefordeten Datein stimmt nicht überein" |}) /\
  (exists e, hd_error reasons = Some e /\ lang e = "en"%string /\
             get_reason_string 1 (bytes_of "   ") = Some (reason_of e)).
Proof.
  destruct (ImvFacts.reason_string_of_first_language 0 (bytes_of "de  , en"))
    as (_ & _ & H).
  destruct (ImvFacts.reason_string_of_first_language 0 (bytes_of "   "))
    as (_ & H' & _).
  split.
  - apply (H _ 2 eq_refl); [right; right; left; reflexivity|reflexivity].
  - apply H'. reflexivity.
Defined.

Lemma unknown_last_language_never_answered_witness :
  eat_whitespace (bytes_of " fr") = (true, bytes_of "fr") /\
  eat_whitespace (bytes_of "fr") = (true, bytes_of "fr") /\
  extract_token x2c (bytes_of "fr") = (false, [], bytes_of "fr") /\
  forall fuel, get_reason_string fuel (bytes_of " fr") = None.
Proof.
  split; [reflexivity|]. split; [reflexivity|]. split; [reflexivity|].
  exact (ImvFacts.unknown_last_language_never_answered
           (bytes_of " fr") (p := bytes_of "fr") (token := [])
           eq_refl eq_refl eq_refl eq_refl).
Defined.

End ImvExamples.

Section PolicyExamples.
Import Policy.
#[local] Existing Instance Policy.toy.

Lemma toy_wildcards_bounded a b w :
  toy_matches a b = Some w -> (0 <= w <= 14)%Z.
Proof.
  unfold toy_matches. destruct (b =? 0); [intros [= <-]; lia|].
  destruct (a =? b); [intros [= <-]; lia|discriminate].
Defined.

Lemma get_policy_closest_match_witness :
  fst (get_policy four_policies 1 7 [80] [80] tt tt) = Some peer_7 /\
  exists pre post,
    policies four_policies = pre ++ peer_7 :: post /\
    acceptable 1 7 [80] [80] tt tt peer_7 /\
    (forall c, In c pre -> acceptable 1 7 [80] [80] tt tt c ->
               (wildcards_of 7%nat peer_7 < wildcards_of 7%nat c)%Z) /\
    (forall c, In c post -> acceptable 1 7 [80] [80] tt tt c ->
               (wildcards_of 7%nat peer_7 <= wildcards_of 7%nat c)%Z).
Proof.
  split; [reflexivity|].
  exact (@PolicyFacts.get_policy_closest_match toy 1 7 [80] [80] tt tt
           toy_wildcards_bounded four_policies).
Defined.

Lemma get_policy_after_add_policy_witness :
  fst (get_policy one_policy 1 7 [80] [80] tt tt)
  = Some any_peer /\
  fst (get_policy (fst (add_policy one_policy peer_7))
         1 7 [80] [80] tt tt) = Some peer_7 /\
  fst (get_policy (fst (add_policy one_policy peer_9))
         1 7 [80] [80] tt tt) = Some any_peer.
Proof.
  split; [reflexivity|]. split.
  - apply (proj1 (@PolicyFacts.get_policy_after_add_policy toy 1 7 [80] [80]
                    tt tt toy_wildcards_bounded one_policy peer_7)).
    + repeat split; discriminate.
    + cbn. lia.
  - apply (proj2 (@PolicyFacts.get_policy_after_add_policy toy 1 7 [80] [80]
                    tt tt toy_wildcards_bounded one_policy peer_9)).
    left. intros (_ & H & _). now apply H.
Defined.

Lemma get_policy_by_name_last_witness :
  get_policy_by_name four_policies "peer"
  = (returns peer_7_again,
     [DBG 2 "looking for policy '%s'"; mutex_lock; mutex_unlock;
      get_ref peer_7_again]) /\
  fst (get_policy_by_name four_policies "none") = null_dereference.
Proof.
  destruct (PolicyFacts.get_policy_by_name_last four_policies "peer")
    as [H _].
  destruct (PolicyFacts.get_policy_by_name_last four_policies "none")
    as [_ H'].
  split.
  - apply (H [any_peer; peer_7] peer_7_again [peer_9] eq_refl eq_refl).
    intros c [<-|[]]. reflexivity.
  - rewrite H'; [reflexivity|].
    intros c [<-|[<-|[<-|[<-|[]]]]]; reflexivity.
Defined.

End PolicyExamples.
